(** * Cloak server: the TLS handshake disguise (internal/server/TLS.go)

    A shallow embedding of the ClientHello parser, the key-share
    extractor, the record codec, the ServerHello composer and the
    connection preparer, followed by the properties of the design
    document that concern them.

    Conventions of the embedding.
    - A byte is a [Z]; lengths, cursors and offsets are [nat] (Go's [int]
      never goes negative here except in [len(data)-5], whose guard is
      written out).
    - Go slices that come from outside, are retained, or are written in
      place are descriptors ([slice]) into a heap of backing arrays, so
      that aliasing and in-place writes are visible.  A slice that a
      function allocates itself and only hands to its caller is
      represented by its contents.
    - A Go function either returns, panics, or (in the model only) runs
      out of loop fuel: [outcome].  [defer]/[recover] is written where
      the source has it. *)

From Stdlib Require Import ZArith Lia.
From stdpp Require Import base numbers list gmap strings pretty.

(** ** Outcomes of a Go call *)

Inductive outcome (A : Type) : Type :=
| Ret (a : A)
| Panic
| Diverge.
Arguments Ret {A} a.
Arguments Panic {A}.
Arguments Diverge {A}.

#[global] Instance outcome_ret : MRet outcome := @Ret.
#[global] Instance outcome_bind : MBind outcome := λ A B k m,
  match m with
  | Ret a => k a
  | Panic => Panic
  | Diverge => Diverge
  end.

Definition returns {A} (m : outcome A) : Prop := ∃ a, m = Ret a.

(** ** Errors *)

Inductive error : Type := errors_New (msg : string).

Definition fmt_Errorf_keyshare (length : nat) : error :=
  errors_New ("key share length should be 32, instead of " +:+ pretty length).

Definition ErrBadClientHello : error := errors_New "non (or malformed) ClientHello".
Definition ErrNotCloak : error := errors_New "TLS but non-Cloak ClientHello".
Definition ErrBadProxyMethod : error := errors_New "invalid proxy method".

(** ** Heap of backing arrays and slice descriptors *)

Record slice : Type := Slice {
  s_buf : nat;   (* backing array *)
  s_off : nat;   (* index of element 0 in the backing array *)
  s_len : nat;
  s_cap : nat
}.

Definition nil_slice : slice := Slice 0 0 0 0.

Abbreviation heap := (gmap nat (list Z)).

Definition block (h : heap) (b : nat) : list Z := default [] (h !! b).

(** The byte an in-range access [s[i]] reads. *)
Definition rd (h : heap) (s : slice) (i : nat) : Z :=
  default 0%Z (block h (s_buf s) !! (s_off s + i)).

(** [s[0:len(s)]] and [s[0:cap(s)]] as values. *)
Definition contents (h : heap) (s : slice) : list Z := rd h s <$> seq 0 (s_len s).
Definition backing (h : heap) (s : slice) : list Z := rd h s <$> seq 0 (s_cap s).

(** A descriptor is valid when its capacity lies inside its array. *)
Definition slice_ok (h : heap) (s : slice) : Prop :=
  s_len s ≤ s_cap s ∧ s_off s + s_cap s ≤ length (block h (s_buf s)).

(** [s[lo:hi]]: the upper bound is checked against the capacity. *)
Definition reslice (s : slice) (lo hi : nat) : outcome slice :=
  if decide (lo ≤ hi ∧ hi ≤ s_cap s)
  then Ret (Slice (s_buf s) (s_off s + lo) (hi - lo) (s_cap s - lo))
  else Panic.

(** [s[lo:]]: the upper bound defaults to [len(s)]. *)
Definition reslice_from (s : slice) (lo : nat) : outcome slice :=
  if decide (lo ≤ s_len s) then reslice s lo (s_len s) else Panic.

(** [s[i]]: checked against the length. *)
Definition index (h : heap) (s : slice) (i : nat) : outcome Z :=
  if decide (i < s_len s) then Ret (rd h s i) else Panic.

(** [binary.BigEndian.Uint16] and [Uint32]. *)
Definition u16 (h : heap) (b : slice) : outcome nat :=
  if decide (2 ≤ s_len b)
  then Ret (Z.to_nat (rd h b 0 * 256 + rd h b 1))
  else Panic.

Definition u32 (b : list Z) : outcome nat :=
  match b with
  | b0 :: b1 :: b2 :: b3 :: _ =>
      Ret (Z.to_nat (((b0 * 256 + b1) * 256 + b2) * 256 + b3))
  | _ => Panic
  end.

Definition bytes_Equal (h : heap) (a : list Z) (b : slice) : bool :=
  bool_decide (a = contents h b).

(** ** ClientHello *)

Record ClientHello : Type := mkClientHello {
  handshakeType : Z;
  helloLength : nat;                 (* field [length] *)
  clientVersion : slice;
  random : slice;
  sessionIdLen : nat;
  sessionId : slice;
  cipherSuitesLen : nat;
  cipherSuites : slice;
  compressionMethodsLen : nat;
  compressionMethods : slice;
  extensionsLen : nat;
  extensions : gmap (Z * Z) slice
}.

(** ** parseExtensions *)

(** One turn of the loop body: the tag, the body and the new cursor. *)
Definition parseExtensions_entry (h : heap) (input : slice) (pointer : nat)
  : outcome ((Z * Z) * slice * nat) :=
  t ← reslice input pointer (pointer + 2);
  let typ := (rd h t 0, rd h t 1) in
  let pointer := pointer + 2 in
  l ← reslice input pointer (pointer + 2);
  length ← u16 h l;
  let pointer := pointer + 2 in
  data ← reslice input pointer (pointer + length);
  let pointer := pointer + length in
  Ret (typ, data, pointer).

(** The loop, with the named result [ret] as explicit state: what is
    returned beside the way the loop ended is the map as it stood. *)
Fixpoint parseExtensions_loop (fuel : nat) (h : heap) (input : slice)
    (pointer : nat) (ret : gmap (Z * Z) slice)
  : gmap (Z * Z) slice * outcome () :=
  if decide (pointer < s_len input) then
    match fuel with
    | 0 => (ret, Diverge)
    | S fuel =>
        match parseExtensions_entry h input pointer with
        | Ret (typ, data, pointer) =>
            parseExtensions_loop fuel h input pointer (<[typ := data]> ret)
        | Panic => (ret, Panic)
        | Diverge => (ret, Diverge)
        end
    end
  else (ret, Ret ()).

Definition parseExtensions (h : heap) (input : slice)
  : outcome (gmap (Z * Z) slice * option error) :=
  let totalLen := s_len input in
  match parseExtensions_loop totalLen h input 0 ∅ with
  | (ret, Ret _) => Ret (ret, None)
  | (ret, Panic) => Ret (ret, Some (errors_New "Malformed Extensions"))
  | (_, Diverge) => Diverge
  end.

(** ** parseKeyShare *)

Fixpoint parseKeyShare_loop (fuel : nat) (h : heap) (input : slice)
    (totalLen pointer : nat) : outcome (slice * option error) :=
  if decide (pointer < totalLen) then
    match fuel with
    | 0 => Diverge
    | S fuel =>
        g ← reslice input pointer (pointer + 2);
        if bytes_Equal h [0x00; 0x1d]%Z g then
          let pointer := pointer + 2 in
          l ← reslice input pointer (pointer + 2);
          length ← u16 h l;
          let pointer := pointer + 2 in
          if decide (length ≠ 32) then
            Ret (nil_slice, Some (fmt_Errorf_keyshare length))
          else
            r ← reslice input pointer (pointer + length);
            Ret (r, None)
        else
          let pointer := pointer + 2 in
          l ← reslice input pointer (pointer + 2);
          length ← u16 h l;
          let pointer := pointer + 2 in
          _ ← reslice input pointer (pointer + length);
          let pointer := pointer + length in
          parseKeyShare_loop fuel h input totalLen pointer
    end
  else Ret (nil_slice, Some (errors_New "x25519 does not exist")).

Definition parseKeyShare_body (h : heap) (input : slice)
  : outcome (slice * option error) :=
  t ← reslice input 0 2;
  totalLen ← u16 h t;
  let pointer := 2 in
  parseKeyShare_loop totalLen h input totalLen pointer.

Definition parseKeyShare (h : heap) (input : slice)
  : outcome (slice * option error) :=
  match parseKeyShare_body h input with
  | Panic => Ret (nil_slice, Some (errors_New "malformed key_share"))
  | r => r
  end.

(** ** addRecordLayer *)

(** [copy(dst[lo:hi], src)] on a fresh buffer held by value. *)
Definition copy_at (dst : list Z) (lo hi : nat) (src : list Z) : list Z :=
  let n := (hi - lo) `min` length src in
  take lo dst ++ take n src ++ drop (lo + n) dst.

Definition PutUint16 (v : Z) : list Z :=
  [Z.shiftr v 8 `mod` 256; v `mod` 256]%Z.

Definition uint16 (n : nat) : Z := (Z.of_nat n `mod` 65536)%Z.

Definition addRecordLayer (input typ ver : list Z) : list Z :=
  let length_ := PutUint16 (uint16 (length input)) in
  let ret := replicate (5 + length input) 0%Z in
  let ret := copy_at ret 0 1 typ in
  let ret := copy_at ret 1 3 ver in
  let ret := copy_at ret 3 5 length_ in
  let ret := copy_at ret 5 (length ret) input in
  ret.

(** ** parseClientHello *)

Definition alloc (h : heap) (data : list Z) : nat * heap :=
  let p := fresh (dom h) in (p, <[p := data]> h).

Definition parseClientHello_body (h : heap) (peeled : slice)
  : outcome (option ClientHello * option error) :=
  let pointer := 0 in
  handshakeType ← index h peeled pointer;
  if decide (handshakeType ≠ 0x01%Z) then
    Ret (None, Some (errors_New "Not a ClientHello"))
  else
  let pointer := pointer + 1 in
  lb ← reslice peeled pointer (pointer + 3);
  length ← u32 (0x00%Z :: contents h lb);
  let pointer := pointer + 3 in
  rest ← reslice_from peeled pointer;
  if decide (length ≠ s_len rest) then
    Ret (None, Some (errors_New "Hello length doesn't match"))
  else
  clientVersion ← reslice peeled pointer (pointer + 2);
  let pointer := pointer + 2 in
  random ← reslice peeled pointer (pointer + 32);
  let pointer := pointer + 32 in
  b ← index h peeled pointer;
  let sessionIdLen := Z.to_nat b in
  let pointer := pointer + 1 in
  sessionId ← reslice peeled pointer (pointer + sessionIdLen);
  let pointer := pointer + sessionIdLen in
  l ← reslice peeled pointer (pointer + 2);
  cipherSuitesLen ← u16 h l;
  let pointer := pointer + 2 in
  cipherSuites ← reslice peeled pointer (pointer + cipherSuitesLen);
  let pointer := pointer + cipherSuitesLen in
  b ← index h peeled pointer;
  let compressionMethodsLen := Z.to_nat b in
  let pointer := pointer + 1 in
  compressionMethods ← reslice peeled pointer (pointer + compressionMethodsLen);
  let pointer := pointer + compressionMethodsLen in
  l ← reslice peeled pointer (pointer + 2);
  extensionsLen ← u16 h l;
  let pointer := pointer + 2 in
  tail ← reslice_from peeled pointer;
  '(extensions, err) ← parseExtensions h tail;
  let ret := mkClientHello handshakeType length clientVersion random
               sessionIdLen sessionId cipherSuitesLen cipherSuites
               compressionMethodsLen compressionMethods
               extensionsLen extensions in
  Ret (Some ret, err).

(** [peeled] is a fresh array of [len(data)-5] bytes holding [data[5:]];
    [make] panics on a negative length, inside the deferred recover. *)
Definition parseClientHello (h : heap) (data : slice)
  : outcome (option ClientHello * option error * heap) :=
  if decide (s_len data < 5) then
    Ret (None, Some (errors_New "Malformed ClientHello"), h)
  else
    let n := s_len data - 5 in
    let '(p, h) := alloc h (drop 5 (contents h data)) in
    let peeled := Slice p 0 n n in
    match parseClientHello_body h peeled with
    | Ret (ret, err) => Ret (ret, err, h)
    | Panic => Ret (None, Some (errors_New "Malformed ClientHello"), h)
    | Diverge => Diverge
    end.

(** ** xor *)

(** [a[i] = v] *)
Definition store (h : heap) (a : slice) (i : nat) (v : Z) : heap :=
  alter (λ blk, <[s_off a + i := v]> blk) (s_buf a) h.

(** [for i := range a { a[i] ^= b[i] }], from index [i] with [n] turns
    to go.  [b[i]] is bounds-checked against [len(b)]. *)
Fixpoint xor_from (n i : nat) (h : heap) (a b : slice) : outcome heap :=
  match n with
  | 0 => Ret h
  | S n =>
      if decide (i < s_len b)
      then xor_from n (S i) (store h a i (Z.lxor (rd h a i) (rd h b i))) a b
      else Panic
  end.

Definition xor (h : heap) (a b : slice) : outcome heap :=
  xor_from (s_len a) 0 h a b.

(** ** composeServerHello *)

Definition fromHexChar (c : Ascii.ascii) : option Z :=
  let n := Z.of_nat (Ascii.nat_of_ascii c) in
  if bool_decide (48 ≤ n ≤ 57)%Z then Some (n - 48)%Z
  else if bool_decide (97 ≤ n ≤ 102)%Z then Some (n - 87)%Z
  else if bool_decide (65 ≤ n ≤ 70)%Z then Some (n - 55)%Z
  else None.

(** [hex.DecodeString], keeping the bytes and dropping the error as the
    caller does. *)
Fixpoint hex_DecodeString (s : string) : list Z :=
  match s with
  | String a (String b s) =>
      match fromHexChar a, fromHexChar b with
      | Some x, Some y => (x * 16 + y)%Z :: hex_DecodeString s
      | _, _ => []
      end
  | _ => []
  end.

(** [crypto/rand.Read] on a fresh [n]-byte buffer; [entropy] stands for
    the system's random source at the time of the call. *)
Definition rand_Read (entropy : nat → Z) (n : nat) : list Z :=
  (λ i, entropy i `mod` 256)%Z <$> seq 0 n.

Definition composeServerHello (h : heap) (sessionId sharedSecret sessionKey : slice)
    (entropy : nat → Z) : outcome (list Z * heap) :=
  h ← xor h sharedSecret sessionKey;
  let keyShare := hex_DecodeString "00330024001d0020" in
  let keyExchange := rand_Read entropy 32 in
  let serverHello : list (list Z) :=
    [ [0x02];                      (* handshake type *)
      [0x00; 0x00; 0x76];          (* length *)
      [0x03; 0x03];                (* server version *)
      contents h sharedSecret;     (* random *)
      [0x20];                      (* session id length 32 *)
      contents h sessionId;        (* session id *)
      [0xc0; 0x30];                (* cipher suite *)
      [0x00];                      (* compression method null *)
      [0x00; 0x2e];                (* extensions length 46 *)
      keyShare ++ keyExchange;
      hex_DecodeString "002b00020304" ]%Z in
  Ret (concat serverHello, h).

(** ** composeReply *)

Definition composeReply (h : heap) (ch : option ClientHello)
    (sharedSecret sessionKey : slice) (entropy : nat → Z)
  : outcome (list Z * heap) :=
  let TLS12 := [0x03; 0x03]%Z in
  match ch with
  | None => Panic                  (* nil dereference in [ch.sessionId] *)
  | Some c =>
      '(sh, h) ← composeServerHello h (sessionId c) sharedSecret sessionKey entropy;
      let shBytes := addRecordLayer sh [0x16]%Z TLS12 in
      let ccsBytes := addRecordLayer [0x01]%Z [0x14]%Z TLS12 in
      let ret := shBytes ++ ccsBytes in
      Ret (ret, h)
  end.

(** ** PrepareConnection *)

(** The closure returned as [finisher]: what it captured. *)
Record finisher_closure (Conn : Type) : Type := mkFinisher {
  fin_ch : option ClientHello;
  fin_sharedSecret : slice;
  fin_conn : Conn
}.
Arguments mkFinisher {Conn} _ _ _.
Arguments fin_ch {Conn} _.
Arguments fin_sharedSecret {Conn} _.
Arguments fin_conn {Conn} _.

Record prepared (Conn : Type) : Type := mkPrepared {
  UID : slice;
  sessionID : Z;
  proxyMethod : string;
  encryptionMethod : Z;
  finisher : option (finisher_closure Conn);
  err : option error
}.
Arguments mkPrepared {Conn} _ _ _ _ _ _.
Arguments UID {Conn} _.
Arguments sessionID {Conn} _.
Arguments proxyMethod {Conn} _.
Arguments encryptionMethod {Conn} _.
Arguments finisher {Conn} _.
Arguments err {Conn} _.

Section Orchestration.
(** What lies outside this file: the server state with its registry of
    proxy methods, the authentication step, and the connection. *)
Context {State Addr Conn : Type}.
Variable ProxyBook : State → gmap string Addr.
Variable TouchStone :
  option ClientHello → State → heap →
  slice * Z * string * Z * slice * option error * heap.
Variable conn_Write : Conn → list Z → Conn * option error.

(** Calling the closure.  The boolean tells whether [go conn.Close()]
    was started. *)
Definition call_finisher (f : finisher_closure Conn) (sessionKey : slice)
    (entropy : nat → Z) (h : heap)
  : outcome (option error * Conn * bool * heap) :=
  '(reply, h) ← composeReply h (fin_ch f) (fin_sharedSecret f) sessionKey entropy;
  let '(conn, err) := conn_Write (fin_conn f) reply in
  match err with
  | Some e => Ret (Some e, conn, true, h)
  | None => Ret (None, conn, false, h)
  end.

Definition PrepareConnection (firstPacket : slice) (sta : State) (conn : Conn)
    (h : heap) : outcome (prepared Conn * heap) :=
  '(ch, err, h) ← parseClientHello h firstPacket;
  match err with
  | Some _ =>
      Ret (mkPrepared nil_slice 0%Z "" 0%Z None (Some ErrBadClientHello), h)
  | None =>
      let '(UID, sessionID, proxyMethod, encryptionMethod, sharedSecret, err, h) :=
        TouchStone ch sta h in
      match err with
      | Some _ =>
          Ret (mkPrepared UID sessionID proxyMethod encryptionMethod None
                 (Some ErrNotCloak), h)
      | None =>
          match ProxyBook sta !! proxyMethod with
          | None =>
              Ret (mkPrepared UID sessionID proxyMethod encryptionMethod None
                     (Some ErrBadProxyMethod), h)
          | Some _ =>
              Ret (mkPrepared UID sessionID proxyMethod encryptionMethod
                     (Some (mkFinisher ch sharedSecret conn)) None, h)
          end
      end
  end.
End Orchestration.

(** * Vocabulary of the statements *)

(** ** Reading composed messages *)

(** The length field of a record: bytes 3 and 4, big-endian. *)
Definition record_length_field (rec : list Z) : Z :=
  (default 0 (rec !! 3%nat) * 256 + default 0 (rec !! 4%nat))%Z.

(** Type and version bytes as [addRecordLayer] leaves them in a buffer
    of [5 + n] bytes. *)
Definition record_header3 (n : nat) (typ ver : list Z) : list Z :=
  take 3 (copy_at (copy_at (replicate (5 + n) 0%Z) 0 1 typ) 1 3 ver).

(** Byte-wise XOR of two byte strings. *)
Definition xor_bytes (S K : list Z) : list Z := zip_with Z.lxor S K.

(** The random field of a ServerHello: 32 bytes after type, length and
    version. *)
Definition serverHello_random (sh : list Z) : list Z := take 32 (drop 6 sh).

(** All slices a ClientHello holds. *)
Definition ClientHello_slices (c : ClientHello) : list slice :=
  [clientVersion c; random c; sessionId c; cipherSuites c; compressionMethods c]
  ++ (map_to_list (extensions c)).*2.

(** ** Results of the parser *)

(** [wp P m]: [m] does not run out of fuel, and if it returns its result
    satisfies [P]; a panic is left to the enclosing recover. *)
Definition wp {A} (P : A → Prop) (m : outcome A) : Prop :=
  match m with
  | Ret a => P a
  | Panic => True
  | Diverge => False
  end.

Definition malformed_extensions_or_nil (e : option error) : Prop :=
  e = None ∨ e = Some (errors_New "Malformed Extensions").

(** The errors [parseClientHello] can hand back. *)
Definition parse_errors : list error :=
  [ errors_New "Not a ClientHello";
    errors_New "Hello length doesn't match";
    errors_New "Malformed ClientHello";
    errors_New "Malformed Extensions" ].

(** Without an error there is a ClientHello; an error is a listed one. *)
Definition parse_result_ok (r : option ClientHello * option error) : Prop :=
  match r.2 with
  | None => is_Some r.1
  | Some e => e ∈ parse_errors
  end.


(** The three bytes after the handshake type, read as the caller sees
    them in the packet: offsets 6, 7 and 8. *)
Definition declared_body_length (h : heap) (data : slice) : nat :=
  Z.to_nat (((0 * 256 + rd h data 6) * 256 + rd h data 7) * 256 + rd h data 8).

(** ** Wire format of tagged, length-prefixed entries

    Extensions and key shares have the same layout: two bytes of tag
    (extension type, named group), a two-byte big-endian length, and
    that many bytes. *)

(** A length a two-byte field can carry. *)
Definition fits16 (n : nat) : Prop := (Z.of_nat n < 65536)%Z.

Definition be16 (n : nat) : list Z := PutUint16 (Z.of_nat n).

Definition enc_entry (e : (Z * Z) * list Z) : list Z :=
  [e.1.1; e.1.2] ++ be16 (length e.2) ++ e.2.

Definition enc_entries (es : list ((Z * Z) * list Z)) : list Z :=
  concat (enc_entry <$> es).

(** An entry cut short by the end of the backing array: fewer than four
    header bytes are left, or fewer body bytes than the header announces. *)
Inductive truncated : list Z → Prop :=
| truncated_header tail :
    0 < length tail < 4 → truncated tail
| truncated_body t1 t2 n body :
    fits16 n → length body < n → truncated ([t1; t2] ++ be16 n ++ body).

(** The named group the extractor looks for. *)
Definition x25519 : Z * Z := (0x00, 0x1d)%Z.

(** ** Sample data *)

(** A complete ClientHello record: 32-byte session id, one key_share
    extension offering an x25519 share of 32 bytes. *)
Definition sample_key : list Z := (λ i, Z.of_nat i) <$> seq 100 32.
Definition sample_packet : list Z :=
  ([0x16; 0x03; 0x01; 0x00; 0x79]                       (* record header *)
   ++ [0x01; 0x00; 0x00; 0x75]                           (* handshake type, length 117 *)
   ++ [0x03; 0x03]                                       (* client version *)
   ++ ((λ i, Z.of_nat i) <$> seq 0 32)                   (* random *)
   ++ [0x20] ++ ((λ i, Z.of_nat i) <$> seq 200 32)       (* session id *)
   ++ [0x00; 0x02; 0xc0; 0x30]                           (* cipher suites *)
   ++ [0x01; 0x00]                                       (* compression methods *)
   ++ [0x00; 0x2a]                                       (* extensions length 42 *)
   ++ [0x00; 0x33; 0x00; 0x26]                           (* key_share, 38 bytes *)
   ++ [0x00; 0x24; 0x00; 0x1d; 0x00; 0x20] ++ sample_key)%Z.

(** The packet as received, a shared secret and a session key, each in
    an array of its own. *)
Definition sample_heap : heap :=
  {[ 1 := sample_packet; 2 := replicate 32 0x0f%Z; 3 := replicate 32 0xf0%Z ]}.
Definition sample_data : slice := Slice 1 0 126 126.
Definition sample_secret : slice := Slice 2 0 32 32.
Definition sample_sessionKey : slice := Slice 3 0 32 32.

(** The two secrets and a session id, without a packet. *)
Definition two_secrets : heap :=
  {[ 2 := replicate 32 0x0f%Z; 3 := replicate 32 0xf0%Z; 4 := replicate 32 0x07%Z ]}.
Definition sample_sessionId : slice := Slice 4 0 32 32.

(** A packet whose session id announces 32 bytes where 3 are left (taken
    whole, 47 bytes); with its last byte dropped (46 bytes) its handshake
    length, 38, is one more than the bytes that follow. *)
Definition truncated_packet : list Z :=
  [0x16; 0x03; 0x01; 0x00; 0x2a; 0x01; 0x00; 0x00; 0x26]%Z ++ replicate 34 0%Z
  ++ [0x20; 0xaa; 0xbb; 0xcc]%Z.

(** Key-share bodies: a three-byte share of another group followed by
    an x25519 share of 32 bytes, of 16 bytes, and by nothing. *)
Definition other_share : (Z * Z) * list Z := ((0x00, 0x17)%Z, [1; 2; 3]%Z).
Definition keyshare_good : list Z :=
  be16 43 ++ enc_entry other_share ++ enc_entry (x25519, sample_key).
Definition keyshare_short : list Z :=
  be16 27 ++ enc_entry other_share ++ enc_entry (x25519, replicate 16 0xaa%Z).
Definition keyshare_absent : list Z :=
  be16 7 ++ enc_entry other_share.

(** An extension block whose second entry loses its length field. *)
Definition cut_extensions : list Z := [0x00; 0x0a; 0x00; 0x01; 0xff; 0x00; 0x0b; 0x00]%Z.

(** Stand-ins for the collaborators: an authentication step that
    rejects, one that accepts and asks for "shadowsocks", and a server
    without proxy methods. *)
Definition TouchStone_reject (ch : option ClientHello) (sta : ()) (h : heap)
  : slice * Z * string * Z * slice * option error * heap :=
  (nil_slice, 0%Z, "", 0%Z, nil_slice, Some (errors_New "decryption failed"), h).
Definition TouchStone_accept (ch : option ClientHello) (sta : ()) (h : heap)
  : slice * Z * string * Z * slice * option error * heap :=
  (nil_slice, 7%Z, "shadowsocks", 0%Z, sample_secret, None, h).
Definition empty_ProxyBook (sta : ()) : gmap string () := ∅.

(** ** Further vocabulary *)

(** The map a list of entries denotes: inserted in order, so that a
    later entry replaces an earlier one with the same tag. *)
Definition entries_map (es : list ((Z * Z) * list Z)) : gmap (Z * Z) (list Z) :=
  foldl (λ m e, <[e.1 := e.2]> m) ∅ es.

(** [s] lies inside the capacity of [input] and ends where it ends. *)
Definition within (input s : slice) : Prop :=
  s_buf s = s_buf input ∧
  s_off input ≤ s_off s ∧
  s_off s + s_cap s = s_off input + s_cap input ∧
  s_len s ≤ s_cap s.

(** What [parseKeyShare] may return: a 32-byte slice of its input, or
    no slice and one of its three kinds of error. *)
Definition keyshare_result_ok (input : slice) (res : slice * option error) : Prop :=
  match res.2 with
  | None => within input res.1 ∧ s_len res.1 = 32
  | Some e =>
      res.1 = nil_slice ∧
      (e = errors_New "malformed key_share" ∨
       e = errors_New "x25519 does not exist" ∨
       ∃ L, L ≠ 32 ∧ e = fmt_Errorf_keyshare L)
  end.

(** Every element is a byte value. *)
Definition all_bytes (l : list Z) : Prop := Forall (λ b, 0 ≤ b < 256)%Z l.

(** Three-byte big-endian length of a handshake message. *)
Definition be24 (n : nat) : list Z :=
  [Z.of_nat n `div` 65536; (Z.of_nat n `div` 256) `mod` 256; Z.of_nat n `mod` 256]%Z.

(** The body of a ClientHello with the given fields; [extLen] is the
    declared extensions length and [ext] the bytes that follow it. *)
Definition enc_hello_body (ver rnd sid cs cm : list Z) (extLen : nat) (ext : list Z)
  : list Z :=
  ver ++ rnd ++ [Z.of_nat (length sid)] ++ sid ++ be16 (length cs) ++ cs
  ++ [Z.of_nat (length cm)] ++ cm ++ be16 extLen ++ ext.

(** The handshake message: type 0x01, length, body. *)
Definition enc_hello (ver rnd sid cs cm : list Z) (extLen : nat) (ext : list Z)
  : list Z :=
  let body := enc_hello_body ver rnd sid cs cm extLen ext in
  [0x01%Z] ++ be24 (length body) ++ body.

(** Field sizes the format can carry. *)
Definition hello_fields_ok (ver rnd sid cs cm : list Z) (extLen : nat) (ext : list Z)
  : Prop :=
  length ver = 2 ∧ length rnd = 32 ∧
  (Z.of_nat (length sid) < 256)%Z ∧ fits16 (length cs) ∧
  (Z.of_nat (length cm) < 256)%Z ∧ fits16 extLen ∧
  (Z.of_nat (length (enc_hello_body ver rnd sid cs cm extLen ext)) < 16777216)%Z.


(** The fields of [sample_packet]. *)
Definition sample_random : list Z := (λ i, Z.of_nat i) <$> seq 0 32.
Definition sample_sid : list Z := (λ i, Z.of_nat i) <$> seq 200 32.
Definition sample_keyshare : (Z * Z) * list Z :=
  ((0x00, 0x33)%Z, [0x00; 0x24; 0x00; 0x1d; 0x00; 0x20]%Z ++ sample_key).

(** A packet like [sample_packet] whose extension block is
    [cut_extensions]. *)
Definition cut_packet : list Z :=
  [0x16; 0x03; 0x01; 0x00; 0x57]%Z
  ++ enc_hello [0x03; 0x03]%Z sample_random sample_sid [0xc0; 0x30]%Z [0x00]%Z 8
       cut_extensions.

(** Two extensions with one tag: the later body is the one kept. *)
Definition repeated_extensions : list ((Z * Z) * list Z) :=
  [((0x00, 0x0a)%Z, [0x01%Z]); ((0x00, 0x0b)%Z, []); ((0x00, 0x0a)%Z, [0x02; 0x03]%Z)].

(** * Properties *)

(** ** Record layer *)

Lemma copy_at_fits (dst : list Z) lo hi src :
  lo ≤ hi → hi ≤ length dst → hi - lo ≤ length src →
  copy_at dst lo hi src = take lo dst ++ take (hi - lo) src ++ drop hi dst.
Proof.
  intros Hlo Hhi Hsrc. unfold copy_at.
  rewrite Nat.min_l by lia. do 3 f_equal. lia.
Qed.

Lemma copy_at_length (dst : list Z) lo hi src :
  lo ≤ hi → hi ≤ length dst → length (copy_at dst lo hi src) = length dst.
Proof.
  intros Hlo Hhi. unfold copy_at.
  rewrite !length_app, !length_take, length_drop. lia.
Qed.

Lemma PutUint16_decode (n : nat) :
  PutUint16 (uint16 n) = [(Z.of_nat n `mod` 65536) `div` 256; (Z.of_nat n `mod` 65536) `mod` 256]%Z.
Proof.
  unfold PutUint16, uint16.
  assert (0 ≤ Z.of_nat n `mod` 65536 < 65536)%Z as H by (apply Z.mod_pos_bound; lia).
  rewrite Z.shiftr_div_pow2 by lia. change (2 ^ 8)%Z with 256%Z.
  rewrite (Z.mod_small (_ `div` 256)); [done|].
  split; [apply Z.div_pos; lia|]. apply Z.div_lt_upper_bound; lia.
Qed.

Lemma addRecordLayer_explicit (input typ ver : list Z) :
  addRecordLayer input typ ver
  = record_header3 (length input) typ ver
    ++ PutUint16 (uint16 (length input)) ++ input.
Proof.
  unfold addRecordLayer, record_header3.
  set (r0 := replicate (5 + length input) 0%Z).
  assert (length r0 = 5 + length input) as H0 by apply length_replicate.
  set (r1 := copy_at r0 0 1 typ).
  assert (length r1 = 5 + length input) as H1.
  { unfold r1. rewrite copy_at_length; lia. }
  set (r2 := copy_at r1 1 3 ver).
  assert (length r2 = 5 + length input) as H2.
  { unfold r2. rewrite copy_at_length; lia. }
  set (len := PutUint16 (uint16 (length input))).
  assert (length len = 2) as Hl by done.
  set (r3 := copy_at r2 3 5 len).
  assert (length r3 = 5 + length input) as H3.
  { unfold r3. rewrite copy_at_length; lia. }
  rewrite copy_at_fits by lia.
  rewrite drop_ge by lia. rewrite app_nil_r.
  replace (length r3 - 5) with (length input) by lia.
  rewrite (take_ge input) by lia.
  unfold r3. rewrite copy_at_fits by lia.
  rewrite (take_ge len) by lia.
  rewrite take_app_ge by (rewrite length_take; lia).
  rewrite length_take. replace (5 - 3 `min` length r2) with 2 by lia.
  rewrite take_app_ge by lia. rewrite Hl. change (2 - 2) with 0.
  rewrite take_0, app_nil_r. by rewrite <- app_assoc.
Qed.

Lemma addRecordLayer_shape (input typ ver : list Z) :
  ∃ hd, length hd = 3 ∧
    addRecordLayer input typ ver = hd ++ PutUint16 (uint16 (length input)) ++ input.
Proof.
  exists (record_header3 (length input) typ ver). split.
  - unfold record_header3. rewrite length_take.
    rewrite copy_at_length; [|lia|];
      rewrite copy_at_length; rewrite ?length_replicate; lia.
  - apply addRecordLayer_explicit.
Qed.

Lemma addRecordLayer_header (input : list Z) (t v1 v2 : Z) :
  addRecordLayer input [t] [v1; v2]
  = [t; v1; v2] ++ PutUint16 (uint16 (length input)) ++ input.
Proof. by rewrite addRecordLayer_explicit. Qed.

Lemma record_length_field_spec (input typ ver : list Z) :
  record_length_field (addRecordLayer input typ ver)
  = (Z.of_nat (length input) `mod` 65536)%Z.
Proof.
  destruct (addRecordLayer_shape input typ ver) as (hd & Hhd & ->).
  destruct hd as [|a [|b [|c [|]]]]; try done. clear Hhd.
  rewrite PutUint16_decode. unfold record_length_field. simpl.
  rewrite Z.mul_comm. symmetry. apply Z.div_mod. lia.
Qed.

Lemma addRecordLayer_payload (input typ ver : list Z) :
  drop 5 (addRecordLayer input typ ver) = input.
Proof.
  destruct (addRecordLayer_shape input typ ver) as (hd & Hhd & ->).
  by destruct hd as [|a [|b [|c [|]]]].
Qed.

(** C10.  Whatever the payload, the two-byte length field of the record
    header holds [len(payload) mod 2^16] and the whole payload follows
    the five header bytes; no error is reported.  From 65536 bytes on
    the field therefore disagrees with the length of the payload that
    the record carries. *)
Theorem addRecordLayer_length_wraps (input typ ver : list Z) :
  let rec := addRecordLayer input typ ver in
  record_length_field rec = (Z.of_nat (length input) `mod` 2 ^ 16)%Z ∧
  drop 5 rec = input ∧
  ((2 ^ 16 ≤ Z.of_nat (length input))%Z →
   record_length_field rec ≠ Z.of_nat (length (drop 5 rec))).
Proof.
  intros rec. unfold rec.
  rewrite record_length_field_spec, addRecordLayer_payload.
  change (2 ^ 16)%Z with 65536%Z.
  split; [done|]. split; [done|]. intros Hbig.
  pose proof (Z.mod_pos_bound (Z.of_nat (length input)) 65536). lia.
Qed.

Lemma addRecordLayer_length_wraps_witness :
  let input := replicate (Z.to_nat 65537) 0%Z in
  let rec := addRecordLayer input [0x17]%Z [0x03; 0x03]%Z in
  (2 ^ 16 ≤ Z.of_nat (length input))%Z ∧
  record_length_field rec ≠ Z.of_nat (length (drop 5 rec)).
Proof.
  intros input rec.
  assert (2 ^ 16 ≤ Z.of_nat (length input))%Z as Hbig.
  { unfold input. rewrite length_replicate. lia. }
  split; [exact Hbig|].
  exact (proj2 (proj2 (addRecordLayer_length_wraps input [0x17]%Z [0x03; 0x03]%Z)) Hbig).
Defined.

(** ** Heap, slices and xor *)

Lemma contents_length h s : length (contents h s) = s_len s.
Proof. unfold contents. by rewrite length_fmap, length_seq. Qed.

Lemma backing_length h s : length (backing h s) = s_cap s.
Proof. unfold backing. by rewrite length_fmap, length_seq. Qed.

Lemma contents_lookup h s i : i < s_len s → contents h s !! i = Some (rd h s i).
Proof.
  intros Hi. unfold contents. rewrite list_lookup_fmap.
  by rewrite lookup_seq_lt.
Qed.

Lemma block_store h a i v buf :
  block (store h a i v) buf =
  if decide (buf = s_buf a) then <[s_off a + i := v]> (block h buf) else block h buf.
Proof.
  unfold block, store. case_decide as Hb.
  - subst buf. rewrite lookup_alter_eq. by destruct (h !! s_buf a).
  - by rewrite lookup_alter_ne.
Qed.

Lemma rd_store_eq h a i v :
  s_off a + i < length (block h (s_buf a)) → rd (store h a i v) a i = v.
Proof.
  intros Hi. unfold rd. rewrite block_store, decide_True by done.
  by rewrite list_lookup_insert_eq.
Qed.

Lemma rd_store_ne h a i v s j :
  s_buf s ≠ s_buf a ∨ s_off s + j ≠ s_off a + i →
  rd (store h a i v) s j = rd h s j.
Proof.
  intros Hne. unfold rd. rewrite block_store. case_decide as Hb; [|done].
  rewrite list_lookup_insert_ne; [done|]. destruct Hne; [done|lia].
Qed.

Lemma block_store_length h a i v buf :
  length (block (store h a i v) buf) = length (block h buf).
Proof. rewrite block_store. case_decide; [apply length_insert|done]. Qed.

Lemma xor_from_returns n i h a b :
  i + n ≤ s_len b → returns (xor_from n i h a b).
Proof.
  revert i h. induction n as [|n IH]; intros i h Hn; simpl.
  - by eexists.
  - rewrite decide_True by lia. apply IH. lia.
Qed.

Lemma xor_from_frame n i h a b h' s j :
  xor_from n i h a b = Ret h' →
  s_buf s ≠ s_buf a ∨ s_off s + j < s_off a + i ∨ s_off a + i + n ≤ s_off s + j →
  rd h' s j = rd h s j.
Proof.
  revert i h. induction n as [|n IH]; intros i h Hx Hout; simpl in Hx.
  - by inversion Hx.
  - case_decide; [|done].
    rewrite (IH _ _ Hx) by lia.
    apply rd_store_ne. lia.
Qed.

Lemma xor_from_value n i h a b h' k :
  xor_from n i h a b = Ret h' →
  s_buf a ≠ s_buf b →
  s_off a + i + n ≤ length (block h (s_buf a)) →
  i ≤ k < i + n →
  rd h' a k = Z.lxor (rd h a k) (rd h b k).
Proof.
  revert i h. induction n as [|n IH]; intros i h Hx Hab Hlen Hk; simpl in Hx.
  - lia.
  - case_decide; [|done].
    destruct (decide (k = i)) as [->|Hki].
    + rewrite (xor_from_frame _ _ _ _ _ _ a i Hx) by lia.
      apply rd_store_eq. lia.
    + rewrite (IH _ _ Hx Hab); [|rewrite block_store_length; lia|lia].
      rewrite !rd_store_ne; [done|left; congruence|right; lia].
Qed.

Lemma xor_returns h a b : s_len a ≤ s_len b → returns (xor h a b).
Proof. intros. apply xor_from_returns. lia. Qed.

Lemma xor_frame h a b h' s :
  xor h a b = Ret h' → s_buf s ≠ s_buf a → contents h' s = contents h s.
Proof.
  intros Hx Hs. unfold contents. apply list_fmap_ext.
  intros _ j _. eapply xor_from_frame; eauto.
Qed.

Lemma zip_with_fmap_same {A B C D} (f : B → C → D) (g : A → B) (g' : A → C) (l : list A) :
  zip_with f (g <$> l) (g' <$> l) = (λ x, f (g x) (g' x)) <$> l.
Proof. induction l as [|x l IH]; [done|]. rewrite !fmap_cons. simpl. by f_equal. Qed.

Lemma xor_contents h a b h' :
  xor h a b = Ret h' → slice_ok h a → s_buf a ≠ s_buf b → s_len a = s_len b →
  contents h' a = xor_bytes (contents h a) (contents h b).
Proof.
  intros Hx [Hlc Hok] Hab Hlen. unfold contents, xor_bytes. rewrite <- Hlen.
  rewrite zip_with_fmap_same.
  apply list_fmap_ext. intros i k Hk. apply lookup_seq in Hk as [-> Hk]. simpl.
  eapply xor_from_value; eauto; lia.
Qed.

Lemma xor_bytes_involutive (S K : list Z) :
  length S = length K → xor_bytes (xor_bytes S K) S = K.
Proof.
  unfold xor_bytes. revert K. induction S as [|s S IH]; intros [|k K] Hl; try done.
  simpl in *. f_equal; [|apply IH; lia].
  rewrite (Z.lxor_comm s k), Z.lxor_assoc, Z.lxor_nilpotent. apply Z.lxor_0_r.
Qed.

(** ** ServerHello composer *)

Lemma keyShare_bytes :
  hex_DecodeString "00330024001d0020" = [0x00; 0x33; 0x00; 0x24; 0x00; 0x1d; 0x00; 0x20]%Z.
Proof. vm_compute. reflexivity. Qed.

Lemma supportedVersions_bytes :
  hex_DecodeString "002b00020304" = [0x00; 0x2b; 0x00; 0x02; 0x03; 0x04]%Z.
Proof. vm_compute. reflexivity. Qed.

Lemma rand_Read_length entropy n : length (rand_Read entropy n) = n.
Proof. unfold rand_Read. by rewrite length_fmap, length_seq. Qed.

Lemma composeServerHello_shape h sessionId sharedSecret sessionKey entropy h' :
  xor h sharedSecret sessionKey = Ret h' →
  composeServerHello h sessionId sharedSecret sessionKey entropy =
  Ret ([0x02; 0x00; 0x00; 0x76; 0x03; 0x03]%Z
         ++ contents h' sharedSecret
         ++ [0x20]%Z
         ++ contents h' sessionId
         ++ [0xc0; 0x30; 0x00; 0x00; 0x2e; 0x00; 0x33; 0x00; 0x24; 0x00; 0x1d; 0x00; 0x20]%Z
         ++ rand_Read entropy 32
         ++ [0x00; 0x2b; 0x00; 0x02; 0x03; 0x04]%Z, h').
Proof.
  intros Hx. unfold composeServerHello. rewrite Hx.
  rewrite keyShare_bytes, supportedVersions_bytes.
  cbn [mbind outcome_bind concat].
  rewrite app_nil_r, <- !app_assoc. reflexivity.
Qed.

Lemma lookup_app_same {A} (pre l1 l2 : list A) i :
  (length pre ≤ i → l1 !! (i - length pre) = l2 !! (i - length pre)) →
  (pre ++ l1) !! i = (pre ++ l2) !! i.
Proof.
  intros H. destruct (decide (i < length pre)).
  - by rewrite !lookup_app_l.
  - rewrite !lookup_app_r by lia. apply H. lia.
Qed.

Lemma lookup_app_skip {A} (v1 v2 l1 l2 : list A) i :
  length v1 = length v2 → length v1 ≤ i →
  l1 !! (i - length v1) = l2 !! (i - length v1) →
  (v1 ++ l1) !! i = (v2 ++ l2) !! i.
Proof.
  intros Hl Hi H. rewrite !lookup_app_r by lia. by rewrite <- Hl.
Qed.

(** C1.  With a 32-byte shared secret S and a 32-byte session key K held
    in two backing arrays, [composeServerHello] returns, the 32 bytes
    of its output at offset 6 (the random field) are S XOR K taken byte
    by byte, and XOR-ing them with S again gives K back. *)
Theorem composeServerHello_random h sessionId sharedSecret sessionKey entropy :
  s_len sharedSecret = 32 → s_len sessionKey = 32 →
  slice_ok h sharedSecret →
  s_buf sharedSecret ≠ s_buf sessionKey →
  ∃ sh h',
    composeServerHello h sessionId sharedSecret sessionKey entropy = Ret (sh, h') ∧
    serverHello_random sh = xor_bytes (contents h sharedSecret) (contents h sessionKey) ∧
    xor_bytes (serverHello_random sh) (contents h sharedSecret) = contents h sessionKey.
Proof.
  intros HS HK Hok Hne.
  destruct (xor_returns h sharedSecret sessionKey) as [h' Hx]; [lia|].
  eexists _, h'. split; [by apply composeServerHello_shape|].
  assert (serverHello_random
            ([0x02; 0x00; 0x00; 0x76; 0x03; 0x03]%Z ++ contents h' sharedSecret ++ [0x20]%Z
             ++ contents h' sessionId
             ++ [0xc0; 0x30; 0x00; 0x00; 0x2e; 0x00; 0x33; 0x00; 0x24; 0x00; 0x1d; 0x00; 0x20]%Z
             ++ rand_Read entropy 32 ++ [0x00; 0x2b; 0x00; 0x02; 0x03; 0x04]%Z)
          = contents h' sharedSecret) as ->.
  { unfold serverHello_random. rewrite drop_app_length' by done.
    rewrite take_app_length'; [done|]. by rewrite contents_length. }
  rewrite (xor_contents h sharedSecret sessionKey h') by (done || lia).
  split; [done|]. apply xor_bytes_involutive. rewrite !contents_length. lia.
Qed.

(** C5, as amended.  Two calls of [composeServerHello] on arbitrary
    32-byte inputs both return 122 bytes that agree at every offset
    outside the random field (6..37), the session id (39..70) and the
    key_share value (84..115): that value is drawn from the random
    source on each call, so it is the third part that varies. *)
Theorem composeServerHello_fixed_shape
    h1 sessionId1 sharedSecret1 sessionKey1 entropy1
    h2 sessionId2 sharedSecret2 sessionKey2 entropy2 :
  s_len sharedSecret1 = 32 → s_len sessionKey1 = 32 → s_len sessionId1 = 32 →
  s_len sharedSecret2 = 32 → s_len sessionKey2 = 32 → s_len sessionId2 = 32 →
  ∃ sh1 h1' sh2 h2',
    composeServerHello h1 sessionId1 sharedSecret1 sessionKey1 entropy1 = Ret (sh1, h1') ∧
    composeServerHello h2 sessionId2 sharedSecret2 sessionKey2 entropy2 = Ret (sh2, h2') ∧
    length sh1 = 122 ∧ length sh2 = 122 ∧
    ∀ i, ¬ (6 ≤ i < 38) → ¬ (39 ≤ i < 71) → ¬ (84 ≤ i < 116) → sh1 !! i = sh2 !! i.
Proof.
  intros HS1 HK1 HI1 HS2 HK2 HI2.
  destruct (xor_returns h1 sharedSecret1 sessionKey1) as [h1' Hx1]; [lia|].
  destruct (xor_returns h2 sharedSecret2 sessionKey2) as [h2' Hx2]; [lia|].
  eexists _, h1', _, h2'.
  split; [by apply composeServerHello_shape|].
  split; [by apply composeServerHello_shape|].
  split; [|split].
  1,2: rewrite !length_app, !contents_length, rand_Read_length; cbn [length]; lia.
  intros i Hr Hs Hk.
  apply lookup_app_same; cbn [length]; intros H6.
  apply lookup_app_skip; rewrite !contents_length; [lia|lia|].
  rewrite HS1.
  apply lookup_app_same; cbn [length]; intros H39.
  apply lookup_app_skip; rewrite !contents_length; [lia|lia|].
  rewrite HI1.
  apply lookup_app_same; cbn [length]; intros H84.
  apply lookup_app_skip; rewrite !rand_Read_length; [lia|lia|].
  done.
Qed.

(** ** Reply composer *)

Lemma composeReply_shape h c sharedSecret sessionKey entropy sh h' :
  composeServerHello h (sessionId c) sharedSecret sessionKey entropy = Ret (sh, h') →
  composeReply h (Some c) sharedSecret sessionKey entropy
  = Ret (([0x16; 0x03; 0x03]%Z ++ PutUint16 (uint16 (length sh)) ++ sh)
           ++ [0x14; 0x03; 0x03; 0x00; 0x01; 0x01]%Z, h').
Proof.
  intros Hsh. unfold composeReply. rewrite Hsh. cbn [mbind outcome_bind].
  rewrite !addRecordLayer_header. reflexivity.
Qed.

(** C4, as amended.  For a ClientHello with a 32-byte session id, a
    32-byte shared secret and a 32-byte session key, the reply starts
    with the record header 16 03 03 00 7A (the ServerHello has 122
    bytes), followed by the ServerHello header 02 00 00 76. *)
Theorem composeReply_header h c sharedSecret sessionKey entropy :
  s_len (sessionId c) = 32 → s_len sharedSecret = 32 → s_len sessionKey = 32 →
  ∃ reply h',
    composeReply h (Some c) sharedSecret sessionKey entropy = Ret (reply, h') ∧
    take 5 reply = [0x16; 0x03; 0x03; 0x00; 0x7A]%Z ∧
    take 4 (drop 5 reply) = [0x02; 0x00; 0x00; 0x76]%Z.
Proof.
  intros HI HS HK.
  destruct (xor_returns h sharedSecret sessionKey) as [h' Hx]; [lia|].
  pose proof (composeServerHello_shape h (sessionId c) _ _ entropy h' Hx) as Hsh.
  eexists _, h'. split; [by apply composeReply_shape|].
  rewrite !length_app, !contents_length, rand_Read_length, HS, HI.
  split; reflexivity.
Qed.

Lemma composeReply_header_witness :
  let h : heap := {[ 1 := replicate 32 0x0f%Z; 2 := replicate 32 0xf0%Z; 3 := replicate 32 7%Z ]} in
  let c := mkClientHello 1 0 nil_slice nil_slice 32 (Slice 3 0 32 32) 0 nil_slice 0 nil_slice 0 ∅ in
  ∃ reply h',
    composeReply h (Some c) (Slice 1 0 32 32) (Slice 2 0 32 32) (λ _, 0%Z) = Ret (reply, h') ∧
    take 5 reply = [0x16; 0x03; 0x03; 0x00; 0x7A]%Z ∧
    take 4 (drop 5 reply) = [0x02; 0x00; 0x00; 0x76]%Z.
Proof.
  intros h c.
  apply (composeReply_header h c (Slice 1 0 32 32) (Slice 2 0 32 32) (λ _, 0%Z));
    reflexivity.
Defined.

(** The end-to-end scenario on [sample_packet]: it parses, its key share
    is the 32 bytes offered, its session id has 32 bytes, and the reply
    opens with a record header announcing 122 (0x7A) bytes, not 76. *)
Lemma composeReply_sample_header :
  ∃ ch h1 ks k reply h2,
    parseClientHello sample_heap sample_data = Ret (Some ch, None, h1) ∧
    extensions ch !! (0x00, 0x33)%Z = Some ks ∧
    parseKeyShare h1 ks = Ret (k, None) ∧ contents h1 k = sample_key ∧
    s_len (sessionId ch) = 32 ∧
    composeReply h1 (Some ch) sample_secret sample_sessionKey (λ _, 0%Z) = Ret (reply, h2) ∧
    take 9 reply = [0x16; 0x03; 0x03; 0x00; 0x7A; 0x02; 0x00; 0x00; 0x76]%Z ∧
    take 5 reply ≠ [0x16; 0x03; 0x03; 0x00; 0x4C]%Z.
Proof.
  do 6 eexists. 
  split; [vm_compute; reflexivity|].
  split; [vm_compute; reflexivity|].
  split; [vm_compute; reflexivity|].
  split; [vm_compute; reflexivity|].
  split; [vm_compute; reflexivity|].
  split; [vm_compute; reflexivity|].
  split; [vm_compute; reflexivity|].
  vm_compute. discriminate.
Qed.

(** ** The deferred reply sender *)

Section ReplySender.
Context {Conn : Type}.
Variable conn_Write : Conn → list Z → Conn * option error.

(** C2, as amended.  Calling the reply sender with a session key as
    long as the captured shared secret returns; every slice of the
    captured ClientHello that lives outside the secret's backing array
    reads as before, but the shared-secret buffer itself is overwritten
    in place with sharedSecret XOR sessionKey. *)
Theorem call_finisher_effect (f : finisher_closure Conn) c sessionKey entropy h :
  fin_ch f = Some c →
  s_len (fin_sharedSecret f) = s_len sessionKey →
  slice_ok h (fin_sharedSecret f) →
  s_buf (fin_sharedSecret f) ≠ s_buf sessionKey →
  Forall (λ s, s_buf s ≠ s_buf (fin_sharedSecret f)) (ClientHello_slices c) →
  ∃ e conn' closing h',
    call_finisher conn_Write f sessionKey entropy h = Ret (e, conn', closing, h') ∧
    Forall (λ s, contents h' s = contents h s) (ClientHello_slices c) ∧
    contents h' (fin_sharedSecret f)
    = xor_bytes (contents h (fin_sharedSecret f)) (contents h sessionKey).
Proof.
  intros Hch Hlen Hok Hne Hsep.
  destruct (xor_returns h (fin_sharedSecret f) sessionKey) as [h' Hx]; [lia|].
  pose proof (composeServerHello_shape h (sessionId c) _ _ entropy h' Hx) as Hsh.
  pose proof (composeReply_shape h c _ _ entropy _ h' Hsh) as Hr.
  unfold call_finisher. rewrite Hch, Hr. cbn [mbind outcome_bind].
  destruct (conn_Write _ _) as [conn' [e|]].
  - exists (Some e), conn', true, h'. split; [done|]. split.
    + eapply Forall_impl; [exact Hsep|]. intros s Hs. by eapply xor_frame.
    + by apply xor_contents.
  - exists None, conn', false, h'. split; [done|]. split.
    + eapply Forall_impl; [exact Hsep|]. intros s Hs. by eapply xor_frame.
    + by apply xor_contents.
Qed.
End ReplySender.

Lemma call_finisher_effect_witness :
  ∃ ch h1 e conn' closing h2,
    parseClientHello sample_heap sample_data = Ret (Some ch, None, h1) ∧
    call_finisher (λ (c : ()) _, (c, None)) (mkFinisher (Some ch) sample_secret ())
      sample_sessionKey (λ _, 0%Z) h1 = Ret (e, conn', closing, h2) ∧
    Forall (λ s, contents h2 s = contents h1 s) (ClientHello_slices ch) ∧
    contents h2 sample_secret
    = xor_bytes (contents h1 sample_secret) (contents h1 sample_sessionKey).
Proof.
  destruct (parseClientHello sample_heap sample_data) as [[[[ch|] [|]] h1]| |] eqn:Hp;
    try (vm_compute in Hp; discriminate).
  exists ch, h1.
  assert (Some ch = Some ch) as Hch by reflexivity.
  assert (s_len sample_secret = s_len sample_sessionKey) as Hlen by reflexivity.
  assert (slice_ok h1 sample_secret) as Hok.
  { vm_compute in Hp. injection Hp as <- <-. vm_compute. lia. }
  assert (s_buf sample_secret ≠ s_buf sample_sessionKey) as Hne by (simpl; lia).
  assert (Forall (λ s, s_buf s ≠ s_buf sample_secret) (ClientHello_slices ch)) as Hsep.
  { vm_compute in Hp. injection Hp as <- <-. vm_compute.
    repeat (constructor; [lia|]). constructor. }
  destruct (call_finisher_effect (λ (c : ()) _, (c, None))
              (mkFinisher (Some ch) sample_secret ()) ch sample_sessionKey (λ _, 0%Z) h1
              Hch Hlen Hok Hne Hsep)
    as (e & conn' & closing & h2 & H).
  exists e, conn', closing, h2. split; [reflexivity|exact H].
Defined.

(** The captured shared secret before and after one call of the reply
    sender: its 32 bytes 0x0f have become 0xff under a 0xf0 session key. *)
Lemma call_finisher_overwrites_sharedSecret :
  ∃ ch h1 r h2,
    parseClientHello sample_heap sample_data = Ret (Some ch, None, h1) ∧
    call_finisher (λ (c : ()) _, (c, None)) (mkFinisher (Some ch) sample_secret ())
      sample_sessionKey (λ _, 0%Z) h1 = Ret (r, h2) ∧
    contents h1 sample_secret = replicate 32 0x0f%Z ∧
    contents h2 sample_secret = replicate 32 0xff%Z ∧
    contents h2 sample_secret ≠ contents h1 sample_secret.
Proof.
  do 4 eexists.
  split; [vm_compute; reflexivity|].
  split; [vm_compute; reflexivity|].
  split; [vm_compute; reflexivity|].
  split; [vm_compute; reflexivity|].
  vm_compute. discriminate.
Qed.

(** ** ClientHello parser: totality *)

Lemma wp_bind {A B} (P : B → Prop) (m : outcome A) (k : A → outcome B) :
  wp (λ a, wp P (k a)) m → wp P (m ≫= k).
Proof. by destruct m. Qed.

Lemma wp_reslice (P : slice → Prop) s lo hi :
  (∀ r, P r) → wp P (reslice s lo hi).
Proof. intros HP. unfold reslice. case_decide; simpl; auto. Qed.

Lemma wp_reslice_from (P : slice → Prop) s lo :
  (∀ r, P r) → wp P (reslice_from s lo).
Proof. intros HP. unfold reslice_from. case_decide; [by apply wp_reslice|done]. Qed.

Lemma wp_index (P : Z → Prop) h s i : (∀ b, P b) → wp P (index h s i).
Proof. intros HP. unfold index. case_decide; simpl; auto. Qed.

Lemma wp_u16 (P : nat → Prop) h s : (∀ n, P n) → wp P (u16 h s).
Proof. intros HP. unfold u16. case_decide; simpl; auto. Qed.

Lemma wp_u32 (P : nat → Prop) b : (∀ n, P n) → wp P (u32 b).
Proof. intros HP. unfold u32. destruct b as [|? [|? [|? [|? ?]]]]; simpl; auto. Qed.

Lemma parseExtensions_entry_advances h input pointer :
  wp (λ '(_, _, pointer'), pointer + 4 ≤ pointer') (parseExtensions_entry h input pointer).
Proof.
  unfold parseExtensions_entry.
  apply wp_bind, wp_reslice; intros t.
  apply wp_bind, wp_reslice; intros l.
  apply wp_bind, wp_u16; intros length.
  apply wp_bind, wp_reslice; intros data.
  simpl. lia.
Qed.

Lemma parseExtensions_loop_fuel fuel h input pointer ret :
  s_len input ≤ pointer + fuel →
  (parseExtensions_loop fuel h input pointer ret).2 ≠ Diverge.
Proof.
  revert pointer ret. induction fuel as [|fuel IH]; intros pointer ret Hf; simpl.
  - case_decide; [lia|done].
  - case_decide; [|done].
    pose proof (parseExtensions_entry_advances h input pointer) as Hadv.
    destruct (parseExtensions_entry h input pointer) as [[[typ data] pointer']| |];
      simpl in Hadv; [|done|done].
    apply IH. lia.
Qed.

Lemma parseExtensions_returns h input :
  ∃ ret err, parseExtensions h input = Ret (ret, err) ∧ malformed_extensions_or_nil err.
Proof.
  unfold parseExtensions.
  pose proof (parseExtensions_loop_fuel (s_len input) h input 0 ∅) as Hf.
  destruct (parseExtensions_loop _ _ _ _ _) as [ret [[]| |]]; simpl in Hf.
  - exists ret, None. split; [done|by left].
  - exists ret, (Some (errors_New "Malformed Extensions")). split; [done|by right].
  - exfalso. apply Hf; [lia|done].
Qed.

Lemma wp_parseExtensions (P : gmap (Z * Z) slice * option error → Prop) h input :
  (∀ ret err, malformed_extensions_or_nil err → P (ret, err)) →
  wp P (parseExtensions h input).
Proof.
  intros HP. destruct (parseExtensions_returns h input) as (ret & err & -> & He).
  by apply HP.
Qed.

Lemma parseClientHello_body_wp h peeled :
  wp parse_result_ok (parseClientHello_body h peeled).
Proof.
  unfold parseClientHello_body.
  apply wp_bind, wp_index; intros handshakeType.
  case_decide. { simpl. unfold parse_result_ok, parse_errors. simpl. set_solver. }
  apply wp_bind, wp_reslice; intros lb.
  apply wp_bind, wp_u32; intros length.
  apply wp_bind, wp_reslice_from; intros rest.
  case_decide. { simpl. unfold parse_result_ok, parse_errors. simpl. set_solver. }
  apply wp_bind, wp_reslice; intros clientVersion.
  apply wp_bind, wp_reslice; intros random.
  apply wp_bind, wp_index; intros b1.
  apply wp_bind, wp_reslice; intros sessionId.
  apply wp_bind, wp_reslice; intros l1.
  apply wp_bind, wp_u16; intros cipherSuitesLen.
  apply wp_bind, wp_reslice; intros cipherSuites.
  apply wp_bind, wp_index; intros b2.
  apply wp_bind, wp_reslice; intros compressionMethods.
  apply wp_bind, wp_reslice; intros l2.
  apply wp_bind, wp_u16; intros extensionsLen.
  apply wp_bind, wp_reslice_from; intros tail.
  apply wp_bind, wp_parseExtensions; intros extensions err [->| ->]; simpl.
  - unfold parse_result_ok. simpl. by eexists.
  - unfold parse_result_ok, parse_errors. simpl. set_solver.
Qed.

Lemma parseClientHello_returns h data :
  ∃ ret err h', parseClientHello h data = Ret (ret, err, h').
Proof.
  unfold parseClientHello. case_decide; [by eexists _, _, _|]. cbn [alloc].
  match goal with
  | |- context [parseClientHello_body ?h1 ?peeled] =>
      pose proof (parseClientHello_body_wp h1 peeled) as Hwp;
      destruct (parseClientHello_body h1 peeled) as [[ret err]| |]
  end; [by eexists _, _, _|by eexists _, _, _|done].
Qed.

(** ** Length consistency *)

Lemma contents_drop_lookup h data i :
  5 + i < s_len data →
  drop 5 (contents h data) !! i = Some (rd h data (5 + i)).
Proof. intros Hi. rewrite lookup_drop. by apply contents_lookup. Qed.

Lemma index_ret h s i : i < s_len s → index h s i = Ret (rd h s i).
Proof. intros. unfold index. by rewrite decide_True. Qed.

Lemma reslice_ret s lo hi :
  lo ≤ hi → hi ≤ s_cap s →
  reslice s lo hi = Ret (Slice (s_buf s) (s_off s + lo) (hi - lo) (s_cap s - lo)).
Proof. intros. unfold reslice. by rewrite decide_True. Qed.

Lemma reslice_from_ret s lo :
  lo ≤ s_len s → s_len s ≤ s_cap s →
  reslice_from s lo
  = Ret (Slice (s_buf s) (s_off s + lo) (s_len s - lo) (s_cap s - lo)).
Proof. intros. unfold reslice_from. rewrite decide_True by done. by apply reslice_ret. Qed.

Lemma u16_ret h s :
  2 ≤ s_len s → u16 h s = Ret (Z.to_nat (rd h s 0 * 256 + rd h s 1)).
Proof. intros. unfold u16. by rewrite decide_True. Qed.

(** C7.  When the three-byte length after the handshake type differs
    from the number of bytes that follow it, the input is rejected: no
    ClientHello is returned, and the error is "Hello length doesn't
    match" (or "Not a ClientHello" when the type byte is not 0x01,
    which is checked first). *)
Theorem parseClientHello_length_mismatch h data :
  9 ≤ s_len data →
  declared_body_length h data ≠ s_len data - 9 →
  ∃ h',
    parseClientHello h data
    = Ret (None,
           Some (if decide (rd h data 5 = 0x01%Z)
                 then errors_New "Hello length doesn't match"
                 else errors_New "Not a ClientHello"),
           h').
Proof.
  intros Hlen Hdecl. unfold parseClientHello.
  rewrite decide_False by lia. cbn [alloc].
  set (blk := drop 5 (contents h data)).
  set (p := fresh (dom h)). set (h1 := <[p := blk]> h).
  assert (∀ off i len cap, 5 + off + i < s_len data →
            rd h1 (Slice p off len cap) i = rd h data (5 + off + i)) as Hrd.
  { intros off i len cap Hi. unfold rd at 1, block, h1. simpl.
    rewrite lookup_insert_eq. simpl. unfold blk.
    rewrite contents_drop_lookup by lia. simpl. f_equal; lia. }
  exists h1. unfold parseClientHello_body.
  rewrite (index_ret h1 _ 0) by (simpl; lia). cbn [mbind outcome_bind].
  rewrite (Hrd 0 0) by lia. simpl (5 + 0 + 0).
  destruct (decide (rd h data 5 = 1%Z)) as [H1|H1].
  2: { by rewrite decide_True. }
  rewrite decide_False by (intros ?; done).
  rewrite (reslice_ret _ (0 + 1) (0 + 1 + 3)) by (simpl; lia). cbn [mbind outcome_bind].
  unfold contents at 1. cbn [s_len s_buf s_off]. change (0 + 1 + 3 - (0 + 1)) with 3.
  cbn [seq fmap list_fmap].
  rewrite !Hrd by lia. cbn [u32 mbind outcome_bind].
  rewrite (reslice_from_ret _ (0 + 1 + 3)) by (simpl; lia).
  cbn [mbind outcome_bind s_len].
  rewrite decide_True; [done|].
  unfold declared_body_length in Hdecl. simpl in Hdecl |- *. lia.
Qed.

Lemma parseClientHello_length_mismatch_witness :
  ∃ h', parseClientHello {[ 1 := truncated_packet ]} (Slice 1 0 46 46)
        = Ret (None, Some (errors_New "Hello length doesn't match"), h').
Proof.
  destruct (parseClientHello_length_mismatch {[ 1 := truncated_packet ]} (Slice 1 0 46 46))
    as [h' Hp]; [simpl; lia|vm_compute; lia|].
  exists h'. exact Hp.
Defined.

(** ** Connection preparer *)

Section Preparation.
Context {State Addr Conn : Type}.
Variable ProxyBook : State → gmap string Addr.
Variable TouchStone :
  option ClientHello → State → heap →
  slice * Z * string * Z * slice * option error * heap.

(** C8.  [PrepareConnection] always returns.  A parse error gives
    [ErrBadClientHello]; a parsed packet that [TouchStone] rejects
    gives [ErrNotCloak] whatever error [TouchStone] reported; an
    accepted packet whose proxy method is not in [ProxyBook] gives
    [ErrBadProxyMethod].  In each of the three cases [finisher] is nil,
    and no other error is ever returned. *)
Theorem PrepareConnection_errors (firstPacket : slice) (sta : State) (conn : Conn)
    (h : heap) :
  ∃ p h',
    PrepareConnection ProxyBook TouchStone firstPacket sta conn h = Ret (p, h') ∧
    (err p = None ∨
     finisher p = None ∧
     err p ∈ [Some ErrBadClientHello; Some ErrNotCloak; Some ErrBadProxyMethod]) ∧
    (∀ ch e h1,
       parseClientHello h firstPacket = Ret (ch, Some e, h1) →
       err p = Some ErrBadClientHello ∧ finisher p = None) ∧
    (∀ ch h1 UID sessionID proxyMethod encryptionMethod sharedSecret e h2,
       parseClientHello h firstPacket = Ret (ch, None, h1) →
       TouchStone ch sta h1
       = (UID, sessionID, proxyMethod, encryptionMethod, sharedSecret, Some e, h2) →
       err p = Some ErrNotCloak ∧ finisher p = None) ∧
    (∀ ch h1 UID sessionID proxyMethod encryptionMethod sharedSecret h2,
       parseClientHello h firstPacket = Ret (ch, None, h1) →
       TouchStone ch sta h1
       = (UID, sessionID, proxyMethod, encryptionMethod, sharedSecret, None, h2) →
       ProxyBook sta !! proxyMethod = None →
       err p = Some ErrBadProxyMethod ∧ finisher p = None).
Proof.
  unfold PrepareConnection.
  destruct (parseClientHello_returns h firstPacket) as (ch & perr & h1 & Hp).
  rewrite Hp. cbn [mbind outcome_bind].
  destruct perr as [e|].
  { eexists _, _. split; [done|]. simpl. split; [right; split; [done|set_solver]|].
    repeat split; intros; simplify_eq; congruence. }
  destruct (TouchStone ch sta h1) as [[[[[[UID sessionID] pm] em] ss] [e|]] h2] eqn:Hts.
  { eexists _, _. split; [done|]. simpl. split; [right; split; [done|set_solver]|].
    repeat split; intros; simplify_eq; congruence. }
  destruct (ProxyBook sta !! pm) as [a|] eqn:Hpb.
  - eexists _, _. split; [done|]. simpl. split; [by left|].
    repeat split; intros; simplify_eq; congruence.
  - eexists _, _. split; [done|]. simpl. split; [right; split; [done|set_solver]|].
    repeat split; intros; simplify_eq; congruence.
Qed.
End Preparation.

(** ** Wire format of tagged, length-prefixed entries *)

Lemma be16_length n : length (be16 n) = 2.
Proof. done. Qed.

Lemma be16_decode n a b :
  fits16 n → be16 n = [a; b] → Z.to_nat (a * 256 + b) = n.
Proof.
  unfold fits16. intros Hn. unfold be16, PutUint16. intros [= <- <-].
  rewrite Z.shiftr_div_pow2 by lia. change (2 ^ 8)%Z with 256%Z.
  rewrite (Z.mod_small (_ `div` 256)).
  - rewrite Z.mul_comm, <- Z.div_mod by lia. lia.
  - split; [apply Z.div_pos; lia|]. apply Z.div_lt_upper_bound; lia.
Qed.

Lemma enc_entry_length e : length (enc_entry e) = 4 + length e.2.
Proof. unfold enc_entry. rewrite !length_app, be16_length. simpl. lia. Qed.

Lemma enc_entries_cons e es : enc_entries (e :: es) = enc_entry e ++ enc_entries es.
Proof. done. Qed.

Lemma enc_entries_length es : length es ≤ length (enc_entries es).
Proof.
  induction es as [|e es IH]; [done|].
  rewrite enc_entries_cons, length_app, enc_entry_length. simpl. lia.
Qed.

(** ** Reading through a slice whose backing array is known *)

Lemma backing_lookup h s L i x :
  backing h s = L → L !! i = Some x → rd h s i = x.
Proof.
  intros <- Hi. unfold backing in Hi. rewrite list_lookup_fmap in Hi.
  destruct (seq 0 (s_cap s) !! i) as [j|] eqn:Hj; [|done].
  apply lookup_seq in Hj as [-> _]. simpl in Hi. congruence.
Qed.

Lemma rd_sub h s lo len cap i :
  rd h (Slice (s_buf s) (s_off s + lo) len cap) i = rd h s (lo + i).
Proof. unfold rd. simpl. by rewrite Nat.add_assoc. Qed.

Lemma contents_sub h s L lo len cap pre body post :
  backing h s = L → L = pre ++ body ++ post → length pre = lo → length body = len →
  contents h (Slice (s_buf s) (s_off s + lo) len cap) = body.
Proof.
  intros Hb -> <- <-. unfold contents. cbn [s_len].
  apply list_eq. intros i. rewrite list_lookup_fmap.
  destruct (decide (i < length body)) as [Hi|Hi].
  - rewrite lookup_seq_lt by done. simpl. rewrite rd_sub.
    destruct (lookup_lt_is_Some_2 body i Hi) as [x Hx]. rewrite Hx. f_equal.
    eapply backing_lookup; [done|].
    rewrite lookup_app_r by lia. rewrite lookup_app_l by lia.
    by replace (length pre + i - length pre) with i by lia.
  - rewrite lookup_seq_ge by lia. simpl. symmetry. apply lookup_ge_None. lia.
Qed.

(** Decoding the four header bytes at [length pre]. *)
Lemma header_rd h s pre t1 t2 n post :
  backing h s = pre ++ [t1; t2] ++ be16 n ++ post → fits16 n →
  rd h s (length pre) = t1 ∧ rd h s (length pre + 1) = t2 ∧
  Z.to_nat (rd h s (length pre + 2) * 256 + rd h s (length pre + 3)) = n ∧
  length pre + 4 + length post = s_cap s.
Proof.
  intros Hb Hn.
  destruct (be16 n) as [|a [|b [|]]] eqn:Hbe; try done.
  pose proof (be16_decode n a b Hn Hbe) as Hdec.
  assert (∀ k x, ([t1; t2; a; b] ++ post) !! k = Some x → rd h s (length pre + k) = x) as Hk.
  { intros k x Hx. eapply backing_lookup; [exact Hb|].
    rewrite lookup_app_r by lia.
    by replace (length pre + k - length pre) with k by lia. }
  split; [rewrite <- (Nat.add_0_r (length pre)); by apply Hk|].
  split; [by apply Hk|].
  split; [by rewrite (Hk 2 a), (Hk 3 b)|].
  rewrite <- (backing_length h s), Hb, !length_app. simpl. lia.
Qed.

(** ** Extension decoder *)

Lemma parseExtensions_entry_decode h input pre e post :
  backing h input = pre ++ enc_entry e ++ post → fits16 (length e.2) →
  ∃ data,
    parseExtensions_entry h input (length pre)
    = Ret (e.1, data, length pre + length (enc_entry e)) ∧
    contents h data = e.2.
Proof.
  destruct e as [[t1 t2] body]. unfold enc_entry. cbn [fst snd].
  rewrite <- !app_assoc. intros Hb Hn.
  destruct (header_rd h input pre t1 t2 (length body) (body ++ post) Hb Hn)
    as (H0 & H1 & H23 & Hcap).
  rewrite length_app in Hcap.
  exists (Slice (s_buf input) (s_off input + (length pre + 2 + 2)) (length body)
            (s_cap input - (length pre + 2 + 2))).
  split.
  - unfold parseExtensions_entry.
    rewrite (reslice_ret input (length pre) (length pre + 2)) by lia.
    cbn [mbind outcome_bind].
    rewrite (reslice_ret input (length pre + 2) (length pre + 2 + 2)) by lia.
    cbn [mbind outcome_bind].
    rewrite u16_ret by (simpl; lia). cbn [mbind outcome_bind].
    rewrite !rd_sub, !Nat.add_0_r, H0, H1.
    replace (length pre + 2 + 1) with (length pre + 3) by lia. rewrite H23.
    rewrite reslice_ret by lia. cbn [mbind outcome_bind].
    replace (length pre + 2 + 2 + length body - (length pre + 2 + 2))
      with (length body) by lia.
    replace (length pre + length ([t1; t2] ++ be16 (length body) ++ body))
      with (length pre + 2 + 2 + length body); [done|].
    rewrite !length_app, be16_length. simpl. lia.
  - eapply (contents_sub h input _ _ _ _ (pre ++ [t1; t2] ++ be16 (length body)) body post);
      [exact Hb| |..].
    + by rewrite <- !app_assoc.
    + rewrite !length_app, be16_length. simpl. lia.
    + done.
Qed.

Lemma reslice_panic s lo hi : s_cap s < hi → reslice s lo hi = Panic.
Proof. intros. unfold reslice. rewrite decide_False; [done|lia]. Qed.

Lemma parseExtensions_entry_truncated h input pre tail :
  backing h input = pre ++ tail → truncated tail →
  parseExtensions_entry h input (length pre) = Panic.
Proof.
  intros Hb Ht.
  assert (s_cap input = length pre + length tail) as Hcap.
  { by rewrite <- (backing_length h input), Hb, length_app. }
  unfold parseExtensions_entry.
  destruct Ht as [tail Hlen|t1 t2 n body Hn Hlen].
  - destruct (decide (length tail < 2)).
    + by rewrite (reslice_panic input (length pre)) by lia.
    + rewrite (reslice_ret input (length pre) (length pre + 2)) by lia.
      cbn [mbind outcome_bind].
      by rewrite (reslice_panic input (length pre + 2)) by lia.
  - destruct (header_rd h input pre t1 t2 n body Hb Hn) as (_ & _ & H23 & Hc).
    rewrite (reslice_ret input (length pre) (length pre + 2)) by lia.
    cbn [mbind outcome_bind].
    rewrite (reslice_ret input (length pre + 2) (length pre + 2 + 2)) by lia.
    cbn [mbind outcome_bind].
    rewrite u16_ret by (simpl; lia). cbn [mbind outcome_bind].
    rewrite !rd_sub, !Nat.add_0_r.
    replace (length pre + 2 + 1) with (length pre + 3) by lia. rewrite H23.
    by rewrite reslice_panic by lia.
Qed.

Lemma parseExtensions_loop_overrun h input es :
  ∀ pre fuel ret tail,
    backing h input = pre ++ enc_entries es ++ tail →
    Forall (λ e, fits16 (length e.2)) es →
    truncated tail →
    length (pre ++ enc_entries es) < s_len input →
    length es < fuel →
    ∃ ret',
      parseExtensions_loop fuel h input (length pre) ret = (ret', Panic) ∧
      dom ret' = dom ret ∪ list_to_set es.*1 ∧
      ∀ tag s, ret' !! tag = Some s → ret !! tag = Some s ∨ (tag, contents h s) ∈ es.
Proof.
  induction es as [|e es IH]; intros pre fuel ret tail Hb Hwf Ht Hlen Hfuel.
  - destruct fuel as [|fuel]; [simpl in Hfuel; lia|].
    rewrite app_nil_r in Hlen. simpl in Hb.
    exists ret. cbn [parseExtensions_loop].
    rewrite decide_True by done.
    rewrite (parseExtensions_entry_truncated h input pre tail) by done.
    split; [done|]. split; [|auto].
    by rewrite fmap_nil, list_to_set_nil, (right_id_L ∅ (∪)).
  - destruct fuel as [|fuel]; [simpl in Hfuel; lia|].
    apply Forall_cons in Hwf as [He Hwf].
    rewrite enc_entries_cons in Hb, Hlen. rewrite <- app_assoc in Hb.
    destruct (parseExtensions_entry_decode h input pre e _ Hb He) as (data & Hent & Hdata).
    cbn [parseExtensions_loop].
    rewrite decide_True by (rewrite !length_app in Hlen; lia).
    rewrite Hent. rewrite <- length_app.
    rewrite app_assoc in Hb.
    destruct (IH (pre ++ enc_entry e) fuel (<[e.1 := data]> ret) tail)
      as (ret' & Hloop & Hdom & Hret); try done.
    { by rewrite <- app_assoc. }
    { simpl in Hfuel. lia. }
    exists ret'. split; [done|]. split.
    + rewrite Hdom, dom_insert_L, fmap_cons, list_to_set_cons.
      by rewrite (comm_L (∪) {[e.1]} (dom ret)), <- (assoc_L (∪)).
    + intros tag s Hs. destruct (Hret tag s Hs) as [Hin|Hin].
      * destruct (decide (e.1 = tag)) as [<-|Hne].
        -- rewrite lookup_insert_eq in Hin. injection Hin as <-.
           right. rewrite Hdata. destruct e. apply list_elem_of_here.
        -- rewrite lookup_insert_ne in Hin by done. by left.
      * right. by apply list_elem_of_further.
Qed.

(** C9, as amended.  Let the backing array of the input hold complete
    entries [es] followed by an entry that the end of the array cuts in
    its tag, its length or its body, and let that entry start inside
    the input.  Then [parseExtensions] reports "Malformed Extensions",
    and the map it returns with the error is the one built so far: it
    binds exactly the tags of [es], each to one of its bodies. *)
Theorem parseExtensions_overrun h input es tail :
  backing h input = enc_entries es ++ tail →
  Forall (λ e, fits16 (length e.2)) es →
  truncated tail →
  length (enc_entries es) < s_len input →
  ∃ ret,
    parseExtensions h input = Ret (ret, Some (errors_New "Malformed Extensions")) ∧
    dom ret = list_to_set es.*1 ∧
    ∀ tag s, ret !! tag = Some s → (tag, contents h s) ∈ es.
Proof.
  intros Hb Hwf Ht Hlen.
  destruct (parseExtensions_loop_overrun h input es [] (s_len input) ∅ tail)
    as (ret & Hloop & Hdom & Hret); try done.
  { pose proof (enc_entries_length es). lia. }
  exists ret. unfold parseExtensions. simpl in Hloop. rewrite Hloop.
  split; [done|]. split; [by rewrite Hdom, dom_empty_L, (left_id_L ∅ (∪))|].
  intros tag s Hs. destruct (Hret tag s Hs) as [Hin|Hin]; [|done].
  by rewrite lookup_empty in Hin.
Qed.

(** ** Key-share extractor *)

Lemma contents_two h s lo cap :
  contents h (Slice (s_buf s) (s_off s + lo) 2 cap) = [rd h s lo; rd h s (lo + 1)].
Proof. unfold contents. simpl. by rewrite !rd_sub, Nat.add_0_r. Qed.

(** A turn of the scan over an entry of another group. *)
Lemma parseKeyShare_loop_skip h input totalLen fuel pre e post :
  backing h input = pre ++ enc_entry e ++ post →
  fits16 (length e.2) → e.1 ≠ x25519 → length pre < totalLen →
  parseKeyShare_loop (S fuel) h input totalLen (length pre)
  = parseKeyShare_loop fuel h input totalLen (length (pre ++ enc_entry e)).
Proof.
  destruct e as [[t1 t2] body]. unfold enc_entry. cbn [fst snd].
  rewrite <- !app_assoc. intros Hb Hn Hg Hlt.
  destruct (header_rd h input pre t1 t2 (length body) (body ++ post) Hb Hn)
    as (H0 & H1 & H23 & Hcap).
  rewrite length_app in Hcap.
  cbn [parseKeyShare_loop]. rewrite decide_True by done.
  rewrite (reslice_ret input (length pre) (length pre + 2)) by lia.
  cbn [mbind outcome_bind].
  unfold bytes_Equal.
  replace (length pre + 2 - length pre) with 2 by lia.
  rewrite contents_two, H0, H1.
  rewrite bool_decide_false by (unfold x25519 in Hg; congruence).
  rewrite (reslice_ret input (length pre + 2) (length pre + 2 + 2)) by lia.
  cbn [mbind outcome_bind].
  rewrite u16_ret by (simpl; lia). cbn [mbind outcome_bind].
  rewrite !rd_sub, !Nat.add_0_r.
  replace (length pre + 2 + 1) with (length pre + 3) by lia. rewrite H23.
  rewrite reslice_ret by lia. cbn [mbind outcome_bind].
  f_equal. rewrite !length_app, be16_length. simpl. lia.
Qed.

(** The turn that meets the x25519 entry. *)
Lemma parseKeyShare_loop_found h input totalLen fuel pre L rest :
  backing h input = pre ++ [0x00; 0x1d]%Z ++ be16 L ++ rest →
  fits16 L → length pre < totalLen →
  parseKeyShare_loop (S fuel) h input totalLen (length pre)
  = if decide (L ≠ 32) then Ret (nil_slice, Some (fmt_Errorf_keyshare L))
    else r ← reslice input (length pre + 2 + 2) (length pre + 2 + 2 + L); Ret (r, None).
Proof.
  intros Hb Hn Hlt.
  destruct (header_rd h input pre _ _ L rest Hb Hn) as (H0 & H1 & H23 & Hcap).
  cbn [parseKeyShare_loop]. rewrite decide_True by done.
  rewrite (reslice_ret input (length pre) (length pre + 2)) by lia.
  cbn [mbind outcome_bind].
  unfold bytes_Equal.
  replace (length pre + 2 - length pre) with 2 by lia.
  rewrite contents_two, H0, H1.
  rewrite bool_decide_true by done.
  rewrite (reslice_ret input (length pre + 2) (length pre + 2 + 2)) by lia.
  cbn [mbind outcome_bind].
  rewrite u16_ret by (simpl; lia). cbn [mbind outcome_bind].
  rewrite !rd_sub, !Nat.add_0_r.
  replace (length pre + 2 + 1) with (length pre + 3) by lia. by rewrite H23.
Qed.

Lemma parseKeyShare_loop_scan h input totalLen es :
  ∀ pre fuel post,
    backing h input = pre ++ enc_entries es ++ post →
    Forall (λ e, fits16 (length e.2)) es →
    Forall (λ e, e.1 ≠ x25519) es →
    length (pre ++ enc_entries es) < totalLen →
    totalLen ≤ length pre + fuel →
    ∃ fuel',
      totalLen ≤ length (pre ++ enc_entries es) + fuel' ∧
      parseKeyShare_loop fuel h input totalLen (length pre)
      = parseKeyShare_loop fuel' h input totalLen (length (pre ++ enc_entries es)).
Proof.
  induction es as [|e es IH]; intros pre fuel post Hb Hwf Hg Hlt Hfuel.
  - exists fuel. by rewrite app_nil_r.
  - apply Forall_cons in Hwf as [He Hwf]. apply Forall_cons in Hg as [Hge Hg].
    rewrite enc_entries_cons in Hb, Hlt |- *. rewrite <- app_assoc in Hb.
    rewrite !length_app in Hlt.
    destruct fuel as [|fuel]; [lia|].
    rewrite (parseKeyShare_loop_skip h input totalLen fuel pre e _ Hb He Hge) by lia.
    rewrite app_assoc in Hb.
    destruct (IH (pre ++ enc_entry e) fuel post Hb Hwf Hg) as (fuel' & Hf' & Heq).
    { rewrite !length_app. lia. }
    { rewrite length_app, enc_entry_length. lia. }
    exists fuel'. rewrite app_assoc. done.
Qed.

Lemma parseKeyShare_loop_exhausted h input totalLen es :
  ∀ pre fuel post,
    backing h input = pre ++ enc_entries es ++ post →
    Forall (λ e, fits16 (length e.2)) es →
    Forall (λ e, e.1 ≠ x25519) es →
    totalLen ≤ length (pre ++ enc_entries es) →
    totalLen ≤ length pre + fuel →
    parseKeyShare_loop fuel h input totalLen (length pre)
    = Ret (nil_slice, Some (errors_New "x25519 does not exist")).
Proof.
  induction es as [|e es IH]; intros pre fuel post Hb Hwf Hg Hge Hfuel.
  - rewrite app_nil_r in Hge.
    destruct fuel; cbn [parseKeyShare_loop]; by rewrite decide_False by lia.
  - destruct (decide (length pre < totalLen)) as [Hlt|Hlt].
    2: { destruct fuel; cbn [parseKeyShare_loop]; by rewrite decide_False by lia. }
    apply Forall_cons in Hwf as [He Hwf]. apply Forall_cons in Hg as [Hgx Hg].
    rewrite enc_entries_cons in Hb, Hge. rewrite <- app_assoc in Hb.
    destruct fuel as [|fuel]; [lia|].
    rewrite (parseKeyShare_loop_skip h input totalLen fuel pre e _ Hb He Hgx) by lia.
    rewrite app_assoc in Hb.
    apply (IH (pre ++ enc_entry e) fuel post Hb Hwf Hg).
    + by rewrite <- app_assoc.
    + rewrite length_app, enc_entry_length. lia.
Qed.

Lemma parseKeyShare_body_start h input T rest :
  backing h input = be16 T ++ rest → fits16 T →
  parseKeyShare_body h input = parseKeyShare_loop T h input T 2.
Proof.
  intros Hb Hn. unfold parseKeyShare_body.
  assert (2 ≤ s_cap input) as Hcap.
  { rewrite <- (backing_length h input), Hb, length_app, be16_length. lia. }
  rewrite reslice_ret by lia. cbn [mbind outcome_bind].
  rewrite u16_ret by (simpl; lia). cbn [mbind outcome_bind].
  destruct (be16 T) as [|a [|b [|]]] eqn:Hbe; try done.
  rewrite !rd_sub. simpl (0 + _).
  rewrite (backing_lookup h input _ 0 a Hb), (backing_lookup h input _ 1 b Hb) by done.
  by rewrite (be16_decode T a b Hn Hbe).
Qed.

(** C3.  Let the key-share body declare the total length [T] and let
    the scan pass the entries [es] of other groups.  If it then meets,
    below offset [T], an x25519 entry of 32 bytes, [parseKeyShare]
    returns exactly those bytes; if the entry announces a length [L]
    other than 32, the result is the error "key share length should be
    32, instead of L"; and if the cursor reaches [T] while passing
    [es], the result is the error "x25519 does not exist". *)
Theorem parseKeyShare_spec h input T es :
  fits16 T →
  Forall (λ e, fits16 (length e.2)) es →
  Forall (λ e, e.1 ≠ x25519) es →
  (∀ key rest,
     backing h input = be16 T ++ enc_entries es ++ enc_entry (x25519, key) ++ rest →
     2 + length (enc_entries es) < T →
     length key = 32 →
     ∃ r, parseKeyShare h input = Ret (r, None) ∧ contents h r = key) ∧
  (∀ L rest,
     backing h input = be16 T ++ enc_entries es ++ [0x00; 0x1d]%Z ++ be16 L ++ rest →
     2 + length (enc_entries es) < T →
     fits16 L → L ≠ 32 →
     parseKeyShare h input = Ret (nil_slice, Some (fmt_Errorf_keyshare L))) ∧
  (∀ rest,
     backing h input = be16 T ++ enc_entries es ++ rest →
     T ≤ 2 + length (enc_entries es) →
     parseKeyShare h input
     = Ret (nil_slice, Some (errors_New "x25519 does not exist"))).
Proof.
  intros HT Hwf Hg. split; [|split].
  - intros key rest Hb Hlt Hkey. unfold parseKeyShare.
    rewrite (parseKeyShare_body_start h input T _ Hb HT).
    change (parseKeyShare_loop T h input T 2)
      with (parseKeyShare_loop T h input T (length (be16 T))).
    destruct (parseKeyShare_loop_scan h input T es (be16 T) T _ Hb Hwf Hg)
      as (fuel & Hfuel & ->).
    { rewrite length_app, be16_length. lia. }
    { rewrite be16_length. lia. }
    rewrite app_assoc in Hb. rewrite length_app, be16_length in Hfuel.
    destruct fuel as [|fuel]; [lia|].
    unfold enc_entry, x25519 in Hb. cbn [fst snd] in Hb. rewrite Hkey in Hb.
    rewrite <- (app_assoc [0%Z; 29%Z]), <- (app_assoc (be16 32)) in Hb.
    rewrite (parseKeyShare_loop_found h input T fuel _ 32 _ Hb);
      [|done|rewrite length_app, be16_length; lia].
    rewrite decide_False by (intros ?; done).
    destruct (header_rd h input _ _ _ 32 _ Hb) as (_ & _ & _ & Hcap); [done|].
    rewrite (length_app key) in Hcap.
    rewrite reslice_ret by lia. cbn [mbind outcome_bind].
    eexists. split; [done|].
    eapply (contents_sub h input _ _ _ _
              ((be16 T ++ enc_entries es) ++ [0%Z; 29%Z] ++ be16 32) key rest);
      [exact Hb| |..].
    + by rewrite <- !app_assoc.
    + rewrite !length_app, !be16_length. simpl. lia.
    + lia.
  - intros L rest Hb Hlt HL HL32. unfold parseKeyShare.
    rewrite (parseKeyShare_body_start h input T _ Hb HT).
    change (parseKeyShare_loop T h input T 2)
      with (parseKeyShare_loop T h input T (length (be16 T))).
    destruct (parseKeyShare_loop_scan h input T es (be16 T) T _ Hb Hwf Hg)
      as (fuel & Hfuel & ->).
    { rewrite length_app, be16_length. lia. }
    { rewrite be16_length. lia. }
    rewrite app_assoc in Hb. rewrite length_app, be16_length in Hfuel.
    destruct fuel as [|fuel]; [lia|].
    rewrite (parseKeyShare_loop_found h input T fuel _ L _ Hb);
      [|done|rewrite length_app, be16_length; lia].
    by rewrite decide_True.
  - intros rest Hb Hge. unfold parseKeyShare.
    rewrite (parseKeyShare_body_start h input T _ Hb HT).
    change (parseKeyShare_loop T h input T 2)
      with (parseKeyShare_loop T h input T (length (be16 T))).
    rewrite (parseKeyShare_loop_exhausted h input T es (be16 T) T rest Hb Hwf Hg);
      [done| |].
    + rewrite length_app, be16_length. lia.
    + rewrite be16_length. lia.
Qed.

(** ** Scenarios *)

Lemma parseKeyShare_spec_witness :
  (∃ r, parseKeyShare {[ 1 := keyshare_good ]} (Slice 1 0 45 45) = Ret (r, None) ∧
        contents {[ 1 := keyshare_good ]} r = sample_key) ∧
  parseKeyShare {[ 1 := keyshare_short ]} (Slice 1 0 29 29)
  = Ret (nil_slice, Some (fmt_Errorf_keyshare 16)) ∧
  parseKeyShare {[ 1 := keyshare_absent ]} (Slice 1 0 9 9)
  = Ret (nil_slice, Some (errors_New "x25519 does not exist")).
Proof.
  assert (Forall (λ e : (Z * Z) * list Z, fits16 (length e.2)) [other_share]) as Hwf.
  { repeat constructor. }
  assert (Forall (λ e : (Z * Z) * list Z, e.1 ≠ x25519) [other_share]) as Hg.
  { repeat constructor. discriminate. }
  split; [|split].
  - apply (proj1 (parseKeyShare_spec {[ 1 := keyshare_good ]} (Slice 1 0 45 45) 43
                    [other_share] eq_refl Hwf Hg) sample_key []).
    + vm_compute. reflexivity.
    + simpl. lia.
    + reflexivity.
  - apply (proj1 (proj2 (parseKeyShare_spec {[ 1 := keyshare_short ]} (Slice 1 0 29 29) 27
                           [other_share] eq_refl Hwf Hg)) 16 (replicate 16 0xaa%Z)).
    + vm_compute. reflexivity.
    + simpl. lia.
    + reflexivity.
    + lia.
  - apply (proj2 (proj2 (parseKeyShare_spec {[ 1 := keyshare_absent ]} (Slice 1 0 9 9) 7
                           [other_share] eq_refl Hwf Hg)) []).
    + vm_compute. reflexivity.
    + simpl. lia.
Defined.

Lemma parseExtensions_overrun_witness :
  ∃ ret,
    parseExtensions {[ 1 := cut_extensions ]} (Slice 1 0 8 8)
    = Ret (ret, Some (errors_New "Malformed Extensions")) ∧
    dom ret = {[ (0x00, 0x0a)%Z ]}.
Proof.
  destruct (parseExtensions_overrun {[ 1 := cut_extensions ]} (Slice 1 0 8 8)
              [((0x00, 0x0a)%Z, [0xff%Z])] [0x00; 0x0b; 0x00]%Z)
    as (ret & Hret & Hdom & _).
  - vm_compute. reflexivity.
  - repeat constructor.
  - apply truncated_header. simpl. lia.
  - simpl. lia.
  - exists ret. split; [exact Hret|]. rewrite Hdom. simpl. apply (right_id_L ∅ (∪)).
Defined.

(** What [parseExtensions] hands back on [cut_extensions]: the error,
    and with it a map that still binds the first tag to its body. *)
Lemma parseExtensions_returns_partial_map :
  ∃ ret s,
    parseExtensions {[ 1 := cut_extensions ]} (Slice 1 0 8 8)
    = Ret (ret, Some (errors_New "Malformed Extensions")) ∧
    ret !! (0x00, 0x0a)%Z = Some s ∧
    contents {[ 1 := cut_extensions ]} s = [0xff%Z] ∧
    ret ≠ ∅.
Proof.
  exists {[ (0x00, 0x0a)%Z := Slice 1 4 1 4 ]}, (Slice 1 4 1 4).
  split; [vm_compute; reflexivity|].
  split; [vm_compute; reflexivity|].
  split; [vm_compute; reflexivity|].
  vm_compute. discriminate.
Qed.

Lemma composeServerHello_random_witness :
  ∃ sh h',
    composeServerHello two_secrets sample_sessionId sample_secret sample_sessionKey (λ _, 0%Z)
    = Ret (sh, h') ∧
    serverHello_random sh
    = xor_bytes (contents two_secrets sample_secret) (contents two_secrets sample_sessionKey) ∧
    xor_bytes (serverHello_random sh) (contents two_secrets sample_secret)
    = contents two_secrets sample_sessionKey.
Proof.
  apply (composeServerHello_random two_secrets sample_sessionId sample_secret
           sample_sessionKey (λ _, 0%Z)).
  - reflexivity.
  - reflexivity.
  - vm_compute. lia.
  - simpl. lia.
Defined.

Lemma composeServerHello_fixed_shape_witness :
  ∃ sh1 h1' sh2 h2',
    composeServerHello two_secrets sample_sessionId sample_secret sample_sessionKey (λ _, 0%Z)
    = Ret (sh1, h1') ∧
    composeServerHello two_secrets sample_secret sample_sessionKey sample_sessionId (λ _, 1%Z)
    = Ret (sh2, h2') ∧
    length sh1 = 122 ∧ length sh2 = 122 ∧
    ∀ i, ¬ (6 ≤ i < 38) → ¬ (39 ≤ i < 71) → ¬ (84 ≤ i < 116) → sh1 !! i = sh2 !! i.
Proof.
  apply (composeServerHello_fixed_shape
           two_secrets sample_sessionId sample_secret sample_sessionKey (λ _, 0%Z)
           two_secrets sample_secret sample_sessionKey sample_sessionId (λ _, 1%Z));
    reflexivity.
Defined.

(** The same call twice, the random source answering 0 and then 1:
    byte 84, the first of the key_share value, differs. *)
Lemma composeServerHello_keyshare_varies :
  ∃ sh1 sh2 h',
    composeServerHello two_secrets sample_sessionId sample_secret sample_sessionKey (λ _, 0%Z)
    = Ret (sh1, h') ∧
    composeServerHello two_secrets sample_sessionId sample_secret sample_sessionKey (λ _, 1%Z)
    = Ret (sh2, h') ∧
    ¬ (6 ≤ 84 < 38) ∧ ¬ (39 ≤ 84 < 71) ∧
    sh1 !! 84 = Some 0%Z ∧ sh2 !! 84 = Some 1%Z ∧ sh1 !! 84 ≠ sh2 !! 84.
Proof.
  do 3 eexists.
  split; [vm_compute; reflexivity|].
  split; [vm_compute; reflexivity|].
  split; [lia|]. split; [lia|].
  split; [vm_compute; reflexivity|].
  split; [vm_compute; reflexivity|].
  vm_compute. discriminate.
Qed.

Lemma PrepareConnection_errors_witness :
  (∃ p h', PrepareConnection empty_ProxyBook TouchStone_accept (Slice 1 0 3 3) () () sample_heap
           = Ret (p, h') ∧ err p = Some ErrBadClientHello ∧ finisher p = None) ∧
  (∃ p h', PrepareConnection empty_ProxyBook TouchStone_reject sample_data () () sample_heap
           = Ret (p, h') ∧ err p = Some ErrNotCloak ∧ finisher p = None) ∧
  (∃ p h', PrepareConnection empty_ProxyBook TouchStone_accept sample_data () () sample_heap
           = Ret (p, h') ∧ err p = Some ErrBadProxyMethod ∧ finisher p = None).
Proof.
  split; [|split].
  - destruct (PrepareConnection_errors empty_ProxyBook TouchStone_accept
                (Slice 1 0 3 3) () () sample_heap) as (p & h' & Hp & _ & H1 & _).
    exists p, h'. split; [exact Hp|]. eapply H1. vm_compute. reflexivity.
  - destruct (PrepareConnection_errors empty_ProxyBook TouchStone_reject
                sample_data () () sample_heap) as (p & h' & Hp & _ & _ & H2 & _).
    exists p, h'. split; [exact Hp|]. eapply H2; [vm_compute; reflexivity|reflexivity].
  - destruct (PrepareConnection_errors empty_ProxyBook TouchStone_accept
                sample_data () () sample_heap) as (p & h' & Hp & _ & _ & _ & H3).
    exists p, h'. split; [exact Hp|].
    eapply H3; [vm_compute; reflexivity|reflexivity|reflexivity].
Defined.

(** * Further properties of the same code *)

(** ** Extension decoder: round trip *)

Lemma parseExtensions_loop_decode h input es :
  ∀ pre fuel ret rest,
    backing h input = pre ++ enc_entries es ++ rest →
    s_len input = length (pre ++ enc_entries es) →
    Forall (λ e, fits16 (length e.2)) es →
    length es ≤ fuel →
    ∃ ret',
      parseExtensions_loop fuel h input (length pre) ret = (ret', Ret ()) ∧
      contents h <$> ret' = foldl (λ m e, <[e.1 := e.2]> m) (contents h <$> ret) es.
Proof.
  induction es as [|e es IH]; intros pre fuel ret rest Hb Hlen Hwf Hfuel.
  - rewrite app_nil_r in Hlen. exists ret. split; [|done].
    destruct fuel; cbn [parseExtensions_loop]; by rewrite decide_False by lia.
  - destruct fuel as [|fuel]; [simpl in Hfuel; lia|].
    apply Forall_cons in Hwf as [He Hwf].
    rewrite enc_entries_cons in Hb, Hlen. rewrite <- app_assoc in Hb.
    destruct (parseExtensions_entry_decode h input pre e _ Hb He) as (data & Hent & Hdata).
    cbn [parseExtensions_loop].
    rewrite decide_True
      by (rewrite Hlen, !length_app, enc_entry_length; lia).
    rewrite Hent. rewrite <- length_app.
    rewrite app_assoc in Hb.
    destruct (IH (pre ++ enc_entry e) fuel (<[e.1 := data]> ret) rest)
      as (ret' & Hloop & Hret); try done.
    { by rewrite <- app_assoc. }
    { simpl in Hfuel. lia. }
    exists ret'. split; [done|].
    rewrite Hret. cbn [foldl]. by rewrite fmap_insert, Hdata.
Qed.

Lemma parseExtensions_decode h input es rest :
  backing h input = enc_entries es ++ rest →
  s_len input = length (enc_entries es) →
  Forall (λ e, fits16 (length e.2)) es →
  ∃ ret,
    parseExtensions h input = Ret (ret, None) ∧
    contents h <$> ret = entries_map es.
Proof.
  intros Hb Hlen Hwf.
  destruct (parseExtensions_loop_decode h input es [] (s_len input) ∅ rest)
    as (ret & Hloop & Hret); try done.
  { rewrite Hlen. apply enc_entries_length. }
  exists ret. unfold parseExtensions. simpl in Hloop. rewrite Hloop.
  split; [done|]. rewrite Hret. by rewrite fmap_empty.
Qed.

(** X1.  Decoding the encoding of a list of extensions (the input ends
    with the last of them) succeeds, and the map read through the heap
    is the list inserted in order: where a tag repeats, the body of its
    last occurrence is the one bound. *)
Theorem parseExtensions_roundtrip h input es rest :
  backing h input = enc_entries es ++ rest →
  s_len input = length (enc_entries es) →
  Forall (λ e, fits16 (length e.2)) es →
  ∃ ret,
    parseExtensions h input = Ret (ret, None) ∧
    contents h <$> ret = entries_map es ∧
    (∀ es' tag body, es = es' ++ [(tag, body)] → contents h <$> ret !! tag = Some body).
Proof.
  intros Hb Hlen Hwf.
  destruct (parseExtensions_decode h input es rest Hb Hlen Hwf) as (ret & Hret & Hmap).
  exists ret. split; [done|]. split; [done|].
  intros es' tag body ->. rewrite <- lookup_fmap, Hmap.
  unfold entries_map. rewrite foldl_app. simpl. apply lookup_insert_eq.
Qed.

Lemma entries_map_snoc es tag body :
  entries_map (es ++ [(tag, body)]) !! tag = Some body.
Proof. unfold entries_map. rewrite foldl_app. simpl. apply lookup_insert_eq. Qed.

(** ** Slices handed out stay inside their source *)

Lemma reslice_within s lo hi r : reslice s lo hi = Ret r → within s r.
Proof.
  unfold reslice. case_decide as H; [|done]. intros [= <-].
  unfold within. simpl. lia.
Qed.

Lemma reslice_from_within s lo r :
  s_len s ≤ s_cap s → reslice_from s lo = Ret r → within s r.
Proof. unfold reslice_from. case_decide; [|done]. intros _. apply reslice_within. Qed.

Lemma within_trans a b c : within a b → within b c → within a c.
Proof. unfold within. intros (? & ? & ? & ?) (? & ? & ? & ?). repeat split; lia || congruence. Qed.

Lemma within_ok h input s : slice_ok h input → within input s → slice_ok h s.
Proof.
  unfold slice_ok, within. intros [? ?] (Hb & ? & ? & ?). rewrite Hb. lia.
Qed.

Lemma wp_reslice_within (P : slice → Prop) s lo hi :
  (∀ r, within s r → s_len r = hi - lo → P r) → wp P (reslice s lo hi).
Proof.
  intros HP. destruct (reslice s lo hi) as [r| |] eqn:Hr; simpl; try done.
  - apply HP; [by eapply reslice_within|].
    unfold reslice in Hr. case_decide; [|done]. by injection Hr as <-.
  - unfold reslice in Hr. by case_decide.
Qed.

Lemma parseExtensions_entry_within h input pointer :
  wp (λ '(_, data, pointer'), pointer + 4 ≤ pointer' ∧ within input data)
     (parseExtensions_entry h input pointer).
Proof.
  unfold parseExtensions_entry.
  apply wp_bind, wp_reslice; intros t.
  apply wp_bind, wp_reslice; intros l.
  apply wp_bind, wp_u16; intros length.
  apply wp_bind, wp_reslice_within; intros data Hw _.
  simpl. split; [lia|done].
Qed.

Lemma parseExtensions_loop_within fuel h input pointer ret :
  s_len input ≤ pointer + fuel →
  map_Forall (λ _ s, within input s) ret →
  (parseExtensions_loop fuel h input pointer ret).2 ≠ Diverge ∧
  map_Forall (λ _ s, within input s) (parseExtensions_loop fuel h input pointer ret).1.
Proof.
  revert pointer ret. induction fuel as [|fuel IH]; intros pointer ret Hf Hret; simpl.
  - case_decide; [lia|done].
  - case_decide; [|done].
    pose proof (parseExtensions_entry_within h input pointer) as Hent.
    destruct (parseExtensions_entry h input pointer) as [[[typ data] pointer']| |];
      simpl in Hent; [|done|done].
    destruct Hent as [Hadv Hw]. apply IH; [lia|]. by apply map_Forall_insert_2.
Qed.

Lemma parseExtensions_result h input :
  ∃ ret err,
    parseExtensions h input = Ret (ret, err) ∧
    (err = None ∨ err = Some (errors_New "Malformed Extensions")) ∧
    map_Forall (λ _ s, within input s) ret.
Proof.
  unfold parseExtensions.
  destruct (parseExtensions_loop_within (s_len input) h input 0 ∅) as [Hd Hw].
  { lia. } { apply map_Forall_empty. }
  destruct (parseExtensions_loop _ _ _ _ _) as [ret [[]| |]]; simpl in Hd, Hw.
  - exists ret, None. auto.
  - exists ret, (Some (errors_New "Malformed Extensions")). auto.
  - done.
Qed.

(** X2.  [parseExtensions] returns on every input; its error is nil or
    "Malformed Extensions"; every slice in the map, also in a partial
    one, lies inside the capacity of the input and shares its array. *)
Theorem parseExtensions_total h input :
  ∃ ret err,
    parseExtensions h input = Ret (ret, err) ∧
    (err = None ∨ err = Some (errors_New "Malformed Extensions")) ∧
    map_Forall (λ _ s, within input s) ret.
Proof. apply parseExtensions_result. Qed.

(** ** Key-share extractor: every outcome *)


Lemma parseKeyShare_loop_wp fuel h input totalLen pointer :
  totalLen ≤ pointer + fuel →
  wp (keyshare_result_ok input) (parseKeyShare_loop fuel h input totalLen pointer).
Proof.
  revert pointer. induction fuel as [|fuel IH]; intros pointer Hf;
    cbn [parseKeyShare_loop].
  - rewrite decide_False by lia. simpl. unfold keyshare_result_ok. simpl. auto.
  - case_decide.
    2: { simpl. unfold keyshare_result_ok. simpl. auto. }
    apply wp_bind, wp_reslice; intros g.
    destruct (bytes_Equal h _ g).
    + apply wp_bind, wp_reslice; intros l.
      apply wp_bind, wp_u16; intros length.
      case_decide as HL.
      * simpl. unfold keyshare_result_ok. simpl. split; [done|]. right. right. eauto.
      * apply wp_bind, wp_reslice_within; intros r Hw Hlen.
        simpl. unfold keyshare_result_ok. simpl. split; [done|]. lia.
    + apply wp_bind, wp_reslice; intros l.
      apply wp_bind, wp_u16; intros length.
      apply wp_bind, wp_reslice; intros _.
      apply IH. lia.
Qed.

(** X3.  [parseKeyShare] returns on every input.  Without error the
    result is a slice of exactly 32 bytes inside the input's array; with
    an error it is the nil slice, and the error is "malformed
    key_share", "x25519 does not exist" or the length message for some
    length other than 32. *)
Theorem parseKeyShare_total h input :
  ∃ r e, parseKeyShare h input = Ret (r, e) ∧ keyshare_result_ok input (r, e).
Proof.
  assert (wp (keyshare_result_ok input) (parseKeyShare_body h input)) as Hwp.
  { unfold parseKeyShare_body.
    apply wp_bind, wp_reslice; intros t.
    apply wp_bind, wp_u16; intros totalLen.
    apply parseKeyShare_loop_wp. lia. }
  unfold parseKeyShare.
  destruct (parseKeyShare_body h input) as [[r e]| |]; simpl in Hwp.
  - by exists r, e.
  - eexists _, _. split; [done|]. unfold keyshare_result_ok. simpl. auto.
  - done.
Qed.

(** [parseKeyShare] never looks at [len(input)]: only at the capacity. *)
Lemma parseKeyShare_loop_len fuel h b o n m c totalLen pointer :
  parseKeyShare_loop fuel h (Slice b o n c) totalLen pointer
  = parseKeyShare_loop fuel h (Slice b o m c) totalLen pointer.
Proof.
  revert pointer. induction fuel as [|fuel IH]; intros pointer; [done|].
  cbn [parseKeyShare_loop]. case_decide; [|done].
  change (reslice (Slice b o n c)) with (reslice (Slice b o m c)).
  destruct (reslice (Slice b o m c) pointer (pointer + 2)) as [g| |]; [|done|done].
  cbn [mbind outcome_bind]. destruct (bytes_Equal h _ g); [done|].
  destruct (reslice _ (pointer + 2) _) as [l| |]; [|done|done].
  cbn [mbind outcome_bind]. destruct (u16 h l) as [length| |]; [|done|done].
  cbn [mbind outcome_bind]. destruct (reslice _ _ _) as [s| |]; [|done|done].
  cbn [mbind outcome_bind]. apply IH.
Qed.

(** X4.  The result of [parseKeyShare] does not depend on [len(input)]:
    every read is a slice expression, checked against the capacity, so
    the scan runs on into whatever follows the key-share body in the
    same array. *)
Theorem parseKeyShare_ignores_len h b o n m c :
  parseKeyShare h (Slice b o n c) = parseKeyShare h (Slice b o m c).
Proof.
  unfold parseKeyShare, parseKeyShare_body.
  change (reslice (Slice b o n c)) with (reslice (Slice b o m c)).
  destruct (reslice (Slice b o m c) 0 2) as [t| |]; [|done|done].
  cbn [mbind outcome_bind]. destruct (u16 h t) as [T| |]; [|done|done].
  cbn [mbind outcome_bind]. by rewrite (parseKeyShare_loop_len T h b o n m c).
Qed.

(** X5.  A key-share body of fewer than two bytes, and an x25519 entry
    that announces 32 bytes where the array holds fewer, both give the
    error "malformed key_share" and no slice. *)
Theorem parseKeyShare_truncated h input :
  (s_cap input < 2 →
   parseKeyShare h input = Ret (nil_slice, Some (errors_New "malformed key_share"))) ∧
  (∀ T es key,
     fits16 T →
     Forall (λ e, fits16 (length e.2)) es →
     Forall (λ e, e.1 ≠ x25519) es →
     backing h input = be16 T ++ enc_entries es ++ [0x00; 0x1d]%Z ++ be16 32 ++ key →
     2 + length (enc_entries es) < T →
     length key < 32 →
     parseKeyShare h input = Ret (nil_slice, Some (errors_New "malformed key_share"))).
Proof.
  split.
  - intros Hcap. unfold parseKeyShare, parseKeyShare_body.
    by rewrite reslice_panic by lia.
  - intros T es key HT Hwf Hg Hb Hlt Hkey. unfold parseKeyShare.
    rewrite (parseKeyShare_body_start h input T _ Hb HT).
    change (parseKeyShare_loop T h input T 2)
      with (parseKeyShare_loop T h input T (length (be16 T))).
    destruct (parseKeyShare_loop_scan h input T es (be16 T) T _ Hb Hwf Hg)
      as (fuel & Hfuel & ->).
    { rewrite length_app, be16_length. lia. }
    { rewrite be16_length. lia. }
    rewrite app_assoc in Hb. rewrite length_app, be16_length in Hfuel.
    destruct fuel as [|fuel]; [lia|].
    rewrite (parseKeyShare_loop_found h input T fuel _ 32 _ Hb);
      [|done|rewrite length_app, be16_length; lia].
    rewrite decide_False by (intros ?; done).
    destruct (header_rd h input _ _ _ 32 _ Hb) as (_ & _ & _ & Hcap); [done|].
    by rewrite reslice_panic by lia.
Qed.

(** ** Extension decoder: what it accepts *)

Lemma backing_lookup_lt h s i :
  i < s_cap s → backing h s !! i = Some (rd h s i).
Proof.
  intros Hi. unfold backing. rewrite list_lookup_fmap. by rewrite lookup_seq_lt.
Qed.

Lemma parseExtensions_entry_inv h input p typ data p' :
  parseExtensions_entry h input p = Ret (typ, data, p') →
  typ = (rd h input p, rd h input (p + 1)) ∧
  p' = p + 4 + Z.to_nat (rd h input (p + 2) * 256 + rd h input (p + 3)) ∧
  p' ≤ s_cap input.
Proof.
  unfold parseExtensions_entry, reslice, u16.
  repeat (case_decide; cbn [mbind outcome_bind s_len]); try discriminate;
    try (exfalso; lia).
  intros [= <- _ <-]. rewrite !rd_sub, !Nat.add_0_r in *.
  replace (p + 2 + 1) with (p + 3) in * by lia.
  split; [done|]. split; lia.
Qed.

Lemma be16_of_bytes (b2 b3 : Z) :
  (0 ≤ b2 < 256)%Z → (0 ≤ b3 < 256)%Z →
  fits16 (Z.to_nat (b2 * 256 + b3)) ∧ be16 (Z.to_nat (b2 * 256 + b3)) = [b2; b3].
Proof.
  intros H2 H3. unfold fits16, be16, PutUint16. rewrite Z2Nat.id by lia.
  split; [lia|].
  rewrite Z.shiftr_div_pow2 by lia. change (2 ^ 8)%Z with 256%Z.
  assert ((b2 * 256 + b3) `div` 256 = b2)%Z as ->.
  { symmetry. apply (Z.div_unique _ 256 b2 b3); lia. }
  assert ((b2 * 256 + b3) `mod` 256 = b3)%Z as ->.
  { symmetry. apply (Z.mod_unique _ 256 b2 b3); lia. }
  by rewrite Z.mod_small by lia.
Qed.

Lemma parseExtensions_loop_complete fuel h input :
  s_cap input = s_len input →
  all_bytes (backing h input) →
  ∀ pointer ret ret',
    parseExtensions_loop fuel h input pointer ret = (ret', Ret ()) →
    pointer ≤ s_len input →
    ∃ es, drop pointer (backing h input) = enc_entries es ∧
          Forall (λ e, fits16 (length e.2)) es.
Proof.
  intros Hcl Hbytes. induction fuel as [|fuel IH]; intros pointer ret ret' Hloop Hp;
    cbn [parseExtensions_loop] in Hloop.
  - case_decide; [done|]. exists []. split; [|done].
    apply drop_ge. rewrite backing_length. lia.
  - case_decide as Hlt.
    2: { exists []. split; [|done]. apply drop_ge. rewrite backing_length. lia. }
    destruct (parseExtensions_entry h input pointer) as [[[typ data] p']| |] eqn:Hent;
      [|done|done].
    destruct (parseExtensions_entry_inv _ _ _ _ _ _ Hent) as (-> & Hp' & Hle).
    destruct (IH p' _ _ Hloop) as (es & Hes & Hwf); [lia|].
    set (b2 := rd h input (pointer + 2)) in *. set (b3 := rd h input (pointer + 3)) in *.
    set (L := Z.to_nat (b2 * 256 + b3)) in *.
    assert (∀ i, i < s_cap input → (0 ≤ rd h input i < 256)%Z) as Hrange.
    { intros i Hi. unfold all_bytes in Hbytes. rewrite Forall_lookup in Hbytes.
      apply (Hbytes i). by apply backing_lookup_lt. }
    destruct (be16_of_bytes b2 b3) as [HfL HbL]; [apply Hrange; lia..|].
    fold L in HfL, HbL.
    set (body := take L (drop (pointer + 4) (backing h input))).
    assert (length body = L) as Hbody.
    { unfold body. rewrite length_take, length_drop, backing_length. lia. }
    exists (((rd h input pointer, rd h input (pointer + 1)), body) :: es).
    split; [|apply Forall_cons; split; [simpl; by rewrite Hbody|done]].
    rewrite enc_entries_cons. unfold enc_entry. cbn [fst snd]. rewrite Hbody, HbL, <- Hes.
    rewrite (drop_S _ (rd h input pointer) pointer) by (apply backing_lookup_lt; lia).
    rewrite (drop_S _ (rd h input (pointer + 1)) (S pointer))
      by (replace (S pointer) with (pointer + 1) by lia; apply backing_lookup_lt; lia).
    rewrite (drop_S _ b2 (S (S pointer)))
      by (replace (S (S pointer)) with (pointer + 2) by lia; apply backing_lookup_lt; lia).
    rewrite (drop_S _ b3 (S (S (S pointer))))
      by (replace (S (S (S pointer))) with (pointer + 3) by lia;
          apply backing_lookup_lt; lia).
    simpl. do 4 f_equal.
    replace (S (S (S (S pointer)))) with (pointer + 4) by lia.
    rewrite <- (take_drop L (drop (pointer + 4) (backing h input))) at 1.
    fold body. f_equal. rewrite drop_drop. f_equal. lia.
Qed.

(** X6.  Conversely: when the input ends where its array ends and holds
    byte values, [parseExtensions] returns without error only on the
    encoding of some list of extensions, whose map it then returns. *)
Theorem parseExtensions_complete h input ret :
  s_cap input = s_len input →
  all_bytes (backing h input) →
  parseExtensions h input = Ret (ret, None) →
  ∃ es,
    backing h input = enc_entries es ∧
    Forall (λ e, fits16 (length e.2)) es ∧
    contents h <$> ret = entries_map es.
Proof.
  intros Hcl Hbytes Hret. unfold parseExtensions in Hret.
  destruct (parseExtensions_loop _ _ _ _ _) as [ret0 [[]| |]] eqn:Hloop; [|done|done].
  injection Hret as ->.
  destruct (parseExtensions_loop_complete _ h input Hcl Hbytes 0 ∅ ret Hloop)
    as (es & Hes & Hwf); [lia|].
  rewrite drop_0 in Hes. exists es. split; [done|]. split; [done|].
  destruct (parseExtensions_decode h input es []) as (ret1 & Hret1 & Hmap).
  - by rewrite app_nil_r.
  - by rewrite <- (backing_length h input), Hes in Hcl.
  - done.
  - unfold parseExtensions in Hret1. rewrite Hloop in Hret1. by injection Hret1 as ->.
Qed.

(** ** Record layer on payloads that fit *)

(** X7.  For a payload that fits a 16-bit length, a one-byte type and a
    two-byte version, the record is type, version, the exact length,
    then the payload; reading length-field many bytes after the
    five-byte header gives the payload back. *)
Theorem addRecordLayer_wellformed (input : list Z) (t v1 v2 : Z) :
  fits16 (length input) →
  let rec := addRecordLayer input [t] [v1; v2] in
  take 3 rec = [t; v1; v2] ∧
  record_length_field rec = Z.of_nat (length input) ∧
  length rec = 5 + length input ∧
  take (Z.to_nat (record_length_field rec)) (drop 5 rec) = input.
Proof.
  intros Hfit; unfold fits16 in Hfit; intros rec.
  assert (record_length_field rec = Z.of_nat (length input)) as Hf.
  { unfold rec. rewrite record_length_field_spec. apply Z.mod_small. lia. }
  split; [|split; [done|split]].
  - unfold rec. by rewrite addRecordLayer_header.
  - unfold rec. rewrite addRecordLayer_header, !length_app. simpl. lia.
  - rewrite Hf, Nat2Z.id. unfold rec. rewrite addRecordLayer_payload.
    by rewrite take_ge.
Qed.

Lemma addRecordLayer_wellformed_witness :
  let rec := addRecordLayer [0x01]%Z [0x14]%Z [0x03; 0x03]%Z in
  take 3 rec = [0x14; 0x03; 0x03]%Z ∧
  record_length_field rec = 1%Z ∧
  length rec = 6 ∧
  take (Z.to_nat (record_length_field rec)) (drop 5 rec) = [0x01%Z].
Proof.
  apply (addRecordLayer_wellformed [0x01]%Z 0x14%Z 0x03%Z 0x03%Z).
  unfold fits16. simpl. lia.
Defined.

(** X8.  Only the first byte of [typ] and the first two of [ver] reach
    the header; bytes the arguments do not provide are zero. *)
Theorem addRecordLayer_header_padding (input typ ver : list Z) :
  take 3 (addRecordLayer input typ ver)
  = take 1 (typ ++ [0%Z]) ++ take 2 (ver ++ [0%Z; 0%Z]).
Proof.
  rewrite addRecordLayer_explicit.
  assert (length (record_header3 (length input) typ ver) = 3) as Hl.
  { unfold record_header3. rewrite length_take.
    rewrite copy_at_length; [|lia|];
      rewrite copy_at_length; rewrite ?length_replicate; lia. }
  rewrite take_app_length'; [|done].
  unfold record_header3.
  destruct typ as [|t typ]; destruct ver as [|v1 [|v2 ver]]; reflexivity.
Qed.

(** ** ServerHello composer: layout for inputs of any length *)

(** X9.  Whatever the lengths of session id and shared secret, the
    message starts 02 00 00 76 03 03, writes 0x20 as session-id length
    after the random field and ends with the fixed cipher suite,
    compression method and extensions.  Its declared handshake length,
    118, is the real one only when secret and session id have 64 bytes
    together. *)
Theorem composeServerHello_layout h sessionId sharedSecret sessionKey entropy :
  s_len sharedSecret ≤ s_len sessionKey →
  ∃ sh h',
    composeServerHello h sessionId sharedSecret sessionKey entropy = Ret (sh, h') ∧
    length sh = 58 + s_len sharedSecret + s_len sessionId ∧
    take 6 sh = [0x02; 0x00; 0x00; 0x76; 0x03; 0x03]%Z ∧
    sh !! (6 + s_len sharedSecret) = Some 0x20%Z ∧
    drop (7 + s_len sharedSecret + s_len sessionId) sh
    = [0xc0; 0x30; 0x00; 0x00; 0x2e; 0x00; 0x33; 0x00; 0x24; 0x00; 0x1d; 0x00; 0x20]%Z
      ++ rand_Read entropy 32 ++ [0x00; 0x2b; 0x00; 0x02; 0x03; 0x04]%Z ∧
    (0x76 = length sh - 4 ↔ s_len sharedSecret + s_len sessionId = 64) ∧
    (0x20 = s_len sessionId ↔ s_len sessionId = 32).
Proof.
  intros Hlen.
  destruct (xor_returns h sharedSecret sessionKey Hlen) as [h' Hx].
  eexists _, h'. split; [by apply composeServerHello_shape|].
  assert (length (contents h' sharedSecret) = s_len sharedSecret) as HS
    by apply contents_length.
  assert (length (contents h' sessionId) = s_len sessionId) as HI
    by apply contents_length.
  set (S := contents h' sharedSecret) in *. set (I := contents h' sessionId) in *.
  assert (∀ tl : list Z,
            length ([0x02; 0x00; 0x00; 0x76; 0x03; 0x03]%Z ++ S ++ [0x20]%Z ++ I ++ tl)
            = 7 + s_len sharedSecret + s_len sessionId + length tl) as Hlen'.
  { intros tl. rewrite !length_app, HS, HI. simpl. lia. }
  split; [rewrite Hlen', !length_app, rand_Read_length; simpl; lia|].
  split; [done|].
  split.
  { rewrite app_assoc.
    apply (list_lookup_middle _ (I ++ _) 0x20%Z). rewrite length_app, HS. simpl. lia. }
  split.
  { rewrite !app_assoc. rewrite <- !(app_assoc _ _ [0x00; 0x2b; 0x00; 0x02; 0x03; 0x04]%Z).
    rewrite <- (app_assoc _ _ (rand_Read entropy 32 ++ _)).
    rewrite drop_app_length'; [done|]. rewrite !length_app, HS, HI. simpl. lia. }
  rewrite Hlen', !length_app, rand_Read_length. simpl. lia.
Qed.

Lemma composeServerHello_layout_witness :
  ∃ sh h',
    composeServerHello two_secrets (Slice 4 0 8 32) sample_secret sample_sessionKey (λ _, 0%Z)
    = Ret (sh, h') ∧
    length sh = 98 ∧ take 4 sh = [0x02; 0x00; 0x00; 0x76]%Z ∧
    sh !! 38 = Some 0x20%Z ∧ 0x76 ≠ length sh - 4.
Proof.
  destruct (composeServerHello_layout two_secrets (Slice 4 0 8 32) sample_secret
              sample_sessionKey (λ _, 0%Z))
    as (sh & h' & Hsh & Hl & Ht & Hi & _ & Hiff & _); [simpl; lia|].
  exists sh, h'. split; [exact Hsh|]. split; [exact Hl|].
  split; [replace (take 4 sh) with (take 4 (take 6 sh)) by (by rewrite take_take);
          by rewrite Ht|].
  split; [exact Hi|].
  intros H. apply Hiff in H. simpl in H. lia.
Defined.

Lemma composeServerHello_sessionId_field h sessionId sharedSecret sessionKey entropy h' :
  xor h sharedSecret sessionKey = Ret h' →
  ∃ sh,
    composeServerHello h sessionId sharedSecret sessionKey entropy = Ret (sh, h') ∧
    length sh = 58 + s_len sharedSecret + s_len sessionId ∧
    take (s_len sessionId) (drop (7 + s_len sharedSecret) sh) = contents h' sessionId.
Proof.
  intros Hx. eexists. split; [by apply composeServerHello_shape|]. split.
  { rewrite !length_app, !contents_length, rand_Read_length. simpl. lia. }
  rewrite (app_assoc _ (contents h' sharedSecret)), (app_assoc _ [0x20%Z]).
  rewrite drop_app_length'.
  - rewrite take_app_length'; [done|]. by rewrite contents_length.
  - rewrite !length_app, contents_length. simpl. lia.
Qed.

(** X10.  The session id is echoed unchanged after the random field and
    the length byte, provided it does not live in the array of the
    shared secret. *)
Theorem composeServerHello_echoes_sessionId h sessionId sharedSecret sessionKey entropy :
  s_len sharedSecret ≤ s_len sessionKey →
  s_buf sessionId ≠ s_buf sharedSecret →
  ∃ sh h',
    composeServerHello h sessionId sharedSecret sessionKey entropy = Ret (sh, h') ∧
    take (s_len sessionId) (drop (7 + s_len sharedSecret) sh) = contents h sessionId.
Proof.
  intros Hlen Hne.
  destruct (xor_returns h sharedSecret sessionKey Hlen) as [h' Hx].
  destruct (composeServerHello_sessionId_field h sessionId _ _ entropy h' Hx)
    as (sh & Hsh & _ & Hf).
  exists sh, h'. split; [done|].
  by rewrite Hf, (xor_frame h sharedSecret sessionKey h' sessionId Hx Hne).
Qed.

Lemma composeServerHello_echoes_sessionId_witness :
  ∃ sh h',
    composeServerHello two_secrets sample_sessionId sample_secret sample_sessionKey (λ _, 0%Z)
    = Ret (sh, h') ∧
    take 32 (drop 39 sh) = contents two_secrets sample_sessionId.
Proof.
  apply (composeServerHello_echoes_sessionId two_secrets sample_sessionId sample_secret
           sample_sessionKey (λ _, 0%Z)); simpl; lia.
Defined.

(** ** A session key shorter than the secret *)

Lemma xor_from_panics n i h a b :
  i ≤ s_len b → s_len b < i + n → xor_from n i h a b = Panic.
Proof.
  revert i h. induction n as [|n IH]; intros i h Hi Hn; simpl.
  - lia.
  - case_decide; [|done]. apply IH; lia.
Qed.

Section ShortKey.
Context {Conn : Type}.
Variable conn_Write : Conn → list Z → Conn * option error.

(** X11.  A session key shorter than the captured shared secret makes
    the reply sender panic: [xor] indexes the key out of range and
    nothing on the way recovers. *)
Theorem call_finisher_short_key (f : finisher_closure Conn) sessionKey entropy h :
  s_len sessionKey < s_len (fin_sharedSecret f) →
  call_finisher conn_Write f sessionKey entropy h = Panic.
Proof.
  intros Hlen. unfold call_finisher, composeReply.
  destruct (fin_ch f) as [c|]; [|done].
  unfold composeServerHello, xor. by rewrite xor_from_panics by lia.
Qed.
End ShortKey.

Lemma call_finisher_short_key_witness :
  call_finisher (λ (c : ()) _, (c, None))
    (mkFinisher
       (Some (mkClientHello 1 0 nil_slice nil_slice 32 sample_sessionId 0 nil_slice
                0 nil_slice 0 ∅))
       sample_secret ())
    (Slice 3 0 16 32) (λ _, 0%Z) two_secrets = Panic.
Proof.
  apply (call_finisher_short_key (λ (c : ()) _, (c, None))). simpl. lia.
Defined.

(** ** Calling the composer again *)

Lemma xor_from_length n i h a b h' buf :
  xor_from n i h a b = Ret h' → length (block h' buf) = length (block h buf).
Proof.
  revert i h. induction n as [|n IH]; intros i h Hx; simpl in Hx.
  - by inversion Hx.
  - case_decide; [|done]. rewrite (IH _ _ Hx). apply block_store_length.
Qed.

Lemma xor_slice_ok h a b h' s : xor h a b = Ret h' → slice_ok h s → slice_ok h' s.
Proof. unfold slice_ok. intros Hx. by rewrite (xor_from_length _ _ _ _ _ _ _ Hx). Qed.

Lemma xor_bytes_cancel (S K : list Z) :
  length S = length K → xor_bytes (xor_bytes S K) K = S.
Proof.
  unfold xor_bytes. revert K. induction S as [|s S IH]; intros [|k K] Hl; try done.
  simpl in *. f_equal; [|apply IH; lia].
  rewrite Z.lxor_assoc, Z.lxor_nilpotent. apply Z.lxor_0_r.
Qed.

Lemma composeServerHello_random_field h sessionId sharedSecret sessionKey entropy h' :
  xor h sharedSecret sessionKey = Ret h' →
  ∃ sh,
    composeServerHello h sessionId sharedSecret sessionKey entropy = Ret (sh, h') ∧
    take (s_len sharedSecret) (drop 6 sh) = contents h' sharedSecret.
Proof.
  intros Hx. eexists. split; [by apply composeServerHello_shape|].
  rewrite drop_app_length' by done.
  rewrite take_app_length'; [done|]. by rewrite contents_length.
Qed.

(** X12.  Composing twice with the same key undoes the first XOR: the
    second ServerHello carries the shared secret itself as its random
    field, and the secret buffer is back to its first value. *)
Theorem composeServerHello_twice h sessionId sharedSecret sessionKey entropy1 entropy2 :
  s_len sharedSecret = s_len sessionKey →
  slice_ok h sharedSecret →
  s_buf sharedSecret ≠ s_buf sessionKey →
  ∃ sh1 h1 sh2 h2,
    composeServerHello h sessionId sharedSecret sessionKey entropy1 = Ret (sh1, h1) ∧
    composeServerHello h1 sessionId sharedSecret sessionKey entropy2 = Ret (sh2, h2) ∧
    take (s_len sharedSecret) (drop 6 sh2) = contents h sharedSecret ∧
    contents h2 sharedSecret = contents h sharedSecret.
Proof.
  intros Hlen Hok Hne.
  destruct (xor_returns h sharedSecret sessionKey) as [h1 Hx1]; [lia|].
  destruct (xor_returns h1 sharedSecret sessionKey) as [h2 Hx2]; [lia|].
  destruct (composeServerHello_random_field h sessionId _ _ entropy1 h1 Hx1)
    as (sh1 & Hsh1 & _).
  destruct (composeServerHello_random_field h1 sessionId _ _ entropy2 h2 Hx2)
    as (sh2 & Hsh2 & Hr2).
  exists sh1, h1, sh2, h2. split; [done|]. split; [done|].
  assert (contents h2 sharedSecret = contents h sharedSecret) as Hback.
  { rewrite (xor_contents h1 sharedSecret sessionKey h2 Hx2);
      [|by eapply xor_slice_ok|done|done].
    rewrite (xor_contents h sharedSecret sessionKey h1 Hx1) by done.
    rewrite (xor_frame h sharedSecret sessionKey h1 sessionKey Hx1) by done.
    apply xor_bytes_cancel. rewrite !contents_length. lia. }
  by rewrite Hr2.
Qed.

Lemma composeServerHello_twice_witness :
  ∃ sh1 h1 sh2 h2,
    composeServerHello two_secrets sample_sessionId sample_secret sample_sessionKey (λ _, 0%Z)
    = Ret (sh1, h1) ∧
    composeServerHello h1 sample_sessionId sample_secret sample_sessionKey (λ _, 1%Z)
    = Ret (sh2, h2) ∧
    take 32 (drop 6 sh2) = contents two_secrets sample_secret ∧
    contents h2 sample_secret = contents two_secrets sample_secret.
Proof.
  apply (composeServerHello_twice two_secrets sample_sessionId sample_secret
           sample_sessionKey (λ _, 0%Z) (λ _, 1%Z)).
  - reflexivity.
  - vm_compute. lia.
  - simpl. lia.
Defined.

(** ** The secret passed as its own key *)

Lemma xor_from_self n i h a h' k :
  xor_from n i h a a = Ret h' →
  s_off a + i + n ≤ length (block h (s_buf a)) →
  i ≤ k < i + n →
  rd h' a k = 0%Z.
Proof.
  revert i h. induction n as [|n IH]; intros i h Hx Hlen Hk; simpl in Hx.
  - lia.
  - case_decide; [|done].
    destruct (decide (k = i)) as [->|Hki].
    + rewrite (xor_from_frame _ _ _ _ _ _ a i Hx) by lia.
      rewrite rd_store_eq by lia. apply Z.lxor_nilpotent.
    + apply (IH _ _ Hx); [rewrite block_store_length; lia|lia].
Qed.

(** X13.  With the shared secret passed as its own session key, the
    random field is all zero and the secret buffer is zeroed. *)
Theorem composeServerHello_same_buffer h sessionId sharedSecret entropy :
  slice_ok h sharedSecret →
  ∃ sh h',
    composeServerHello h sessionId sharedSecret sharedSecret entropy = Ret (sh, h') ∧
    take (s_len sharedSecret) (drop 6 sh) = replicate (s_len sharedSecret) 0%Z ∧
    contents h' sharedSecret = replicate (s_len sharedSecret) 0%Z.
Proof.
  intros [Hlc Hok].
  destruct (xor_returns h sharedSecret sharedSecret) as [h' Hx]; [lia|].
  destruct (composeServerHello_random_field h sessionId _ _ entropy h' Hx)
    as (sh & Hsh & Hr).
  exists sh, h'. split; [done|].
  assert (contents h' sharedSecret = replicate (s_len sharedSecret) 0%Z) as Hz.
  { apply list_eq. intros k. unfold contents. rewrite list_lookup_fmap.
    destruct (decide (k < s_len sharedSecret)) as [Hk|Hk].
    - rewrite lookup_seq_lt, lookup_replicate_2 by done. simpl. f_equal.
      eapply xor_from_self; [exact Hx|lia|lia].
    - rewrite lookup_seq_ge by lia. simpl. symmetry.
      apply lookup_replicate_None. lia. }
  by rewrite Hr.
Qed.

Lemma composeServerHello_same_buffer_witness :
  ∃ sh h',
    composeServerHello two_secrets sample_sessionId sample_secret sample_secret (λ _, 0%Z)
    = Ret (sh, h') ∧
    take 32 (drop 6 sh) = replicate 32 0%Z ∧
    contents h' sample_secret = replicate 32 0%Z.
Proof.
  apply (composeServerHello_same_buffer two_secrets sample_sessionId sample_secret (λ _, 0%Z)).
  vm_compute. lia.
Defined.

(** ** The whole reply *)

(** X14.  The reply is the ServerHello in a handshake record (type 0x16,
    version 03 03, length field [len mod 2^16]) followed by the
    six-byte ChangeCipherSpec record 14 03 03 00 01 01; it has
    69 + len(sharedSecret) + len(sessionId) bytes. *)
Theorem composeReply_layout h c sharedSecret sessionKey entropy :
  s_len sharedSecret ≤ s_len sessionKey →
  ∃ sh h' reply,
    composeServerHello h (sessionId c) sharedSecret sessionKey entropy = Ret (sh, h') ∧
    composeReply h (Some c) sharedSecret sessionKey entropy = Ret (reply, h') ∧
    length reply = 69 + s_len sharedSecret + s_len (sessionId c) ∧
    take 3 reply = [0x16; 0x03; 0x03]%Z ∧
    record_length_field reply = uint16 (length sh) ∧
    take (length sh) (drop 5 reply) = sh ∧
    drop (5 + length sh) reply = [0x14; 0x03; 0x03; 0x00; 0x01; 0x01]%Z.
Proof.
  intros Hlen.
  destruct (xor_returns h sharedSecret sessionKey Hlen) as [h' Hx].
  pose proof (composeServerHello_shape h (sessionId c) _ _ entropy h' Hx) as Hsh.
  set (sh := _ ++ _) in Hsh.
  assert (length sh = 58 + s_len sharedSecret + s_len (sessionId c)) as Hl.
  { unfold sh. rewrite !length_app, !contents_length, rand_Read_length. simpl. lia. }
  exists sh, h', (addRecordLayer sh [0x16]%Z [0x03; 0x03]%Z
                  ++ [0x14; 0x03; 0x03; 0x00; 0x01; 0x01]%Z).
  split; [done|]. split.
  { rewrite (composeReply_shape _ _ _ _ _ _ _ Hsh). by rewrite !addRecordLayer_header. }
  assert (length (addRecordLayer sh [0x16]%Z [0x03; 0x03]%Z) = 5 + length sh) as Hrl.
  { rewrite addRecordLayer_header, !length_app. simpl. lia. }
  split; [rewrite length_app, Hrl, Hl; simpl; lia|].
  split; [by rewrite addRecordLayer_header|].
  split.
  { unfold record_length_field. rewrite !lookup_app_l by lia.
    apply record_length_field_spec. }
  split.
  - rewrite addRecordLayer_header, <- !app_assoc.
    rewrite (app_assoc [0x16; 0x03; 0x03]%Z (PutUint16 _)), drop_app_length' by done.
    by rewrite take_app_length.
  - by rewrite drop_app_length'.
Qed.

Lemma composeReply_layout_witness :
  ∃ sh h' reply,
    composeServerHello two_secrets sample_sessionId sample_secret sample_sessionKey (λ _, 0%Z)
    = Ret (sh, h') ∧
    composeReply two_secrets
      (Some (mkClientHello 1 0 nil_slice nil_slice 32 sample_sessionId 0 nil_slice
               0 nil_slice 0 ∅))
      sample_secret sample_sessionKey (λ _, 0%Z) = Ret (reply, h') ∧
    length reply = 133 ∧
    drop (5 + length sh) reply = [0x14; 0x03; 0x03; 0x00; 0x01; 0x01]%Z.
Proof.
  destruct (composeReply_layout two_secrets
              (mkClientHello 1 0 nil_slice nil_slice 32 sample_sessionId 0 nil_slice
                 0 nil_slice 0 ∅)
              sample_secret sample_sessionKey (λ _, 0%Z))
    as (sh & h' & reply & H1 & H2 & H3 & _ & _ & _ & H4); [simpl; lia|].
  exists sh, h', reply. split; [exact H1|]. split; [exact H2|].
  split; [exact H3|exact H4].
Defined.

(** ** ClientHello parser on well-formed packets *)

Lemma be24_decode n :
  (Z.of_nat n < 16777216)%Z → u32 (0%Z :: be24 n) = Ret n.
Proof.
  intros Hn. unfold be24, u32. f_equal.
  pose proof (Z.div_mod (Z.of_nat n) 256 ltac:(lia)) as H1.
  pose proof (Z.div_mod (Z.of_nat n `div` 256) 256 ltac:(lia)) as H2.
  rewrite Z.div_div in H2 by lia. change (256 * 256)%Z with 65536%Z in H2.
  lia.
Qed.

Lemma rd_at h s pre x post lo :
  backing h s = pre ++ x :: post → length pre = lo → rd h s lo = x.
Proof.
  intros Hb <-. eapply backing_lookup; [exact Hb|]. by apply list_lookup_middle.
Qed.

Lemma u16_at h s pre n post lo cap :
  backing h s = pre ++ be16 n ++ post → length pre = lo → fits16 n →
  u16 h (Slice (s_buf s) (s_off s + lo) 2 cap) = Ret n.
Proof.
  intros Hb Hlo Hn. rewrite u16_ret by (simpl; lia). rewrite !rd_sub.
  destruct (be16 n) as [|a [|b [|]]] eqn:Hbe; try done.
  rewrite (rd_at h s pre a (b :: post) (lo + 0)) by (done || lia).
  rewrite (rd_at h s (pre ++ [a]) b post (lo + 1)).
  - by rewrite (be16_decode n a b Hn Hbe).
  - by rewrite <- app_assoc.
  - rewrite length_app. simpl. lia.
Qed.

Lemma backing_sub h s lo len :
  backing h (Slice (s_buf s) (s_off s + lo) len (s_cap s - lo)) = drop lo (backing h s).
Proof.
  apply list_eq. intros i. unfold backing. cbn [s_cap].
  rewrite lookup_drop, !list_lookup_fmap.
  destruct (decide (lo + i < s_cap s)) as [Hi|Hi].
  - rewrite !lookup_seq_lt by lia. simpl. by rewrite rd_sub.
  - by rewrite !lookup_seq_ge by lia.
Qed.

Lemma backing_alloc (h : heap) p blk :
  backing (<[p := blk]> h) (Slice p 0 (length blk) (length blk)) = blk.
Proof.
  apply list_eq. intros i. unfold backing. cbn [s_cap]. rewrite list_lookup_fmap.
  destruct (decide (i < length blk)) as [Hi|Hi].
  - rewrite lookup_seq_lt by done. simpl. unfold rd, block. simpl.
    rewrite lookup_insert_eq. simpl.
    destruct (lookup_lt_is_Some_2 blk i Hi) as [x ->]. done.
  - rewrite lookup_seq_ge by lia. simpl. symmetry. apply lookup_ge_None. lia.
Qed.

Lemma parseClientHello_body_fields h P ver rnd sid cs cm extLen ext :
  backing h P = enc_hello ver rnd sid cs cm extLen ext →
  s_len P = s_cap P →
  hello_fields_ok ver rnd sid cs cm extLen ext →
  ∃ cv rn si csu cme tail,
    contents h cv = ver ∧ contents h rn = rnd ∧
    contents h si = sid ∧ s_buf si = s_buf P ∧
    contents h csu = cs ∧ contents h cme = cm ∧
    backing h tail = ext ∧ s_len tail = length ext ∧ within P tail ∧
    parseClientHello_body h P
    = '(exts, err) ← parseExtensions h tail;
      Ret (Some (mkClientHello 1 (length (enc_hello_body ver rnd sid cs cm extLen ext))
                   cv rn (length sid) si (length cs) csu (length cm) cme extLen exts),
           err).
Proof.
  intros Hb Hlc (Hver & Hrnd & Hsid & Hcs & Hcm & Hext & HL).
  set (body := enc_hello_body ver rnd sid cs cm extLen ext) in *.
  assert (length body = 2 + 32 + 1 + length sid + 2 + length cs + 1 + length cm
                        + 2 + length ext) as Hbody.
  { unfold body, enc_hello_body. rewrite !length_app, !be16_length. simpl. lia. }
  assert (s_cap P = 4 + length body) as Hcap.
  { rewrite <- (backing_length h P), Hb. unfold enc_hello. fold body.
    rewrite !length_app. simpl. lia. }
  unfold enc_hello in Hb. fold body in Hb.
  unfold parseClientHello_body.
  (* handshake type *)
  rewrite (index_ret h P 0) by lia. cbn [mbind outcome_bind].
  rewrite (rd_at h P [] 1%Z (be24 (length body) ++ body) 0 Hb eq_refl).
  rewrite decide_False by (intros ?; done).
  (* length *)
  rewrite (reslice_ret P (0 + 1) (0 + 1 + 3)) by lia. cbn [mbind outcome_bind].
  rewrite (contents_sub h P _ (0 + 1) (0 + 1 + 3 - (0 + 1)) _
             [1%Z] (be24 (length body)) body Hb eq_refl eq_refl eq_refl).
  rewrite be24_decode by done. cbn [mbind outcome_bind].
  rewrite (reslice_from_ret P (0 + 1 + 3)) by lia. cbn [mbind outcome_bind s_len].
  rewrite decide_False by lia.
  exists (Slice (s_buf P) (s_off P + 4) 2 (s_cap P - 4)).
  exists (Slice (s_buf P) (s_off P + 6) 32 (s_cap P - 6)).
  exists (Slice (s_buf P) (s_off P + 39) (length sid) (s_cap P - 39)).
  exists (Slice (s_buf P) (s_off P + (41 + length sid)) (length cs)
            (s_cap P - (41 + length sid))).
  exists (Slice (s_buf P) (s_off P + (42 + length sid + length cs)) (length cm)
            (s_cap P - (42 + length sid + length cs))).
  exists (Slice (s_buf P) (s_off P + (44 + length sid + length cs + length cm))
            (length ext) (s_cap P - (44 + length sid + length cs + length cm))).
  assert (backing h P
          = ([1%Z] ++ be24 (length body)) ++ ver ++ rnd ++ [Z.of_nat (length sid)] ++ sid
            ++ be16 (length cs) ++ cs ++ [Z.of_nat (length cm)] ++ cm
            ++ be16 extLen ++ ext) as Hb'.
  { rewrite Hb. unfold body, enc_hello_body. by rewrite <- app_assoc. }
  set (hd := [1%Z] ++ be24 (length body)) in Hb'.
  assert (length hd = 4) as Hhd by done.
  clearbody hd. clear Hb.
  change (0 + 1 + 3) with 4. change (4 + 2) with 6. change (6 + 32) with 38.
  change (38 + 1) with 39.
  rewrite (reslice_ret P 4 6) by lia. cbn [mbind outcome_bind].
  rewrite (reslice_ret P 6 38) by lia. cbn [mbind outcome_bind].
  rewrite (index_ret h P 38) by lia. cbn [mbind outcome_bind].
  assert (rd h P 38 = Z.of_nat (length sid)) as ->.
  { apply (rd_at h P (hd ++ ver ++ rnd) _ (sid ++ be16 (length cs) ++ cs
             ++ [Z.of_nat (length cm)] ++ cm ++ be16 extLen ++ ext)).
    - rewrite Hb'. by rewrite <- !app_assoc.
    - rewrite !length_app. lia. }
  rewrite Nat2Z.id.
  rewrite (reslice_ret P 39 (39 + length sid)) by lia. cbn [mbind outcome_bind].
  replace (39 + length sid - 39) with (length sid) by lia.
  rewrite (reslice_ret P (39 + length sid) (39 + length sid + 2)) by lia.
  cbn [mbind outcome_bind].
  replace (39 + length sid + 2 - (39 + length sid)) with 2 by lia.
  rewrite (u16_at h P (hd ++ ver ++ rnd ++ [Z.of_nat (length sid)] ++ sid) (length cs)
             (cs ++ [Z.of_nat (length cm)] ++ cm ++ be16 extLen ++ ext));
    [|rewrite Hb'; by rewrite <- !app_assoc|rewrite !length_app; simpl; lia|done].
  cbn [mbind outcome_bind].
  rewrite (reslice_ret P (39 + length sid + 2) (39 + length sid + 2 + length cs)) by lia.
  cbn [mbind outcome_bind].
  rewrite (index_ret h P (39 + length sid + 2 + length cs)) by lia.
  cbn [mbind outcome_bind].
  assert (rd h P (39 + length sid + 2 + length cs) = Z.of_nat (length cm)) as ->.
  { apply (rd_at h P (hd ++ ver ++ rnd ++ [Z.of_nat (length sid)] ++ sid
                      ++ be16 (length cs) ++ cs) _ (cm ++ be16 extLen ++ ext)).
    - rewrite Hb'. by rewrite <- !app_assoc.
    - rewrite !length_app, be16_length. simpl. lia. }
  rewrite Nat2Z.id.
  rewrite (reslice_ret P (39 + length sid + 2 + length cs + 1)
             (39 + length sid + 2 + length cs + 1 + length cm)) by lia.
  cbn [mbind outcome_bind].
  rewrite (reslice_ret P (39 + length sid + 2 + length cs + 1 + length cm)
             (39 + length sid + 2 + length cs + 1 + length cm + 2)) by lia.
  cbn [mbind outcome_bind].
  replace (39 + length sid + 2 + length cs + 1 + length cm + 2
           - (39 + length sid + 2 + length cs + 1 + length cm)) with 2 by lia.
  rewrite (u16_at h P (hd ++ ver ++ rnd ++ [Z.of_nat (length sid)] ++ sid
                       ++ be16 (length cs) ++ cs ++ [Z.of_nat (length cm)] ++ cm)
             extLen ext);
    [|rewrite Hb'; by rewrite <- !app_assoc
     |rewrite !length_app, be16_length; simpl; lia|done].
  cbn [mbind outcome_bind].
  rewrite (reslice_from_ret P (39 + length sid + 2 + length cs + 1 + length cm + 2))
    by lia.
  cbn [mbind outcome_bind].
  replace (Slice (s_buf P) (s_off P + (39 + length sid + 2))
             (39 + length sid + 2 + length cs - (39 + length sid + 2))
             (s_cap P - (39 + length sid + 2)))
    with (Slice (s_buf P) (s_off P + (41 + length sid)) (length cs)
            (s_cap P - (41 + length sid))) by (f_equal; lia).
  replace (Slice (s_buf P) (s_off P + (39 + length sid + 2 + length cs + 1))
             (39 + length sid + 2 + length cs + 1 + length cm
              - (39 + length sid + 2 + length cs + 1))
             (s_cap P - (39 + length sid + 2 + length cs + 1)))
    with (Slice (s_buf P) (s_off P + (42 + length sid + length cs)) (length cm)
            (s_cap P - (42 + length sid + length cs))) by (f_equal; lia).
  replace (Slice (s_buf P)
             (s_off P + (39 + length sid + 2 + length cs + 1 + length cm + 2))
             (s_len P - (39 + length sid + 2 + length cs + 1 + length cm + 2))
             (s_cap P - (39 + length sid + 2 + length cs + 1 + length cm + 2)))
    with (Slice (s_buf P) (s_off P + (44 + length sid + length cs + length cm))
            (length ext) (s_cap P - (44 + length sid + length cs + length cm)))
    by (f_equal; lia).
  split.
  { eapply (contents_sub h P _ _ _ _ hd ver); [exact Hb'|done|done|done]. }
  split.
  { eapply (contents_sub h P _ _ _ _ (hd ++ ver) rnd);
      [exact Hb'|by rewrite <- !app_assoc|rewrite length_app; lia|done]. }
  split.
  { eapply (contents_sub h P _ _ _ _ (hd ++ ver ++ rnd ++ [Z.of_nat (length sid)]) sid);
      [exact Hb'|by rewrite <- !app_assoc|rewrite !length_app; simpl; lia|done]. }
  split; [done|].
  split.
  { eapply (contents_sub h P _ _ _ _
              (hd ++ ver ++ rnd ++ [Z.of_nat (length sid)] ++ sid ++ be16 (length cs)) cs);
      [exact Hb'|by rewrite <- !app_assoc
      |rewrite !length_app, be16_length; simpl; lia|done]. }
  split.
  { eapply (contents_sub h P _ _ _ _
              (hd ++ ver ++ rnd ++ [Z.of_nat (length sid)] ++ sid ++ be16 (length cs)
               ++ cs ++ [Z.of_nat (length cm)]) cm);
      [exact Hb'|by rewrite <- !app_assoc
      |rewrite !length_app, be16_length; simpl; lia|done]. }
  split.
  { rewrite backing_sub, Hb'.
    rewrite !app_assoc. apply drop_app_length'.
    rewrite !length_app, !be16_length. simpl. lia. }
  split; [done|].
  split; [unfold within; simpl; lia|].
  reflexivity.
Qed.

(** What [parseClientHello] does once the header length is known. *)
Lemma parseClientHello_peel h data hdr hs :
  contents h data = hdr ++ hs → length hdr = 5 →
  ∃ p h1,
    p = fresh (dom h) ∧ h1 = <[p := hs]> h ∧
    backing h1 (Slice p 0 (length hs) (length hs)) = hs ∧
    parseClientHello h data
    = match parseClientHello_body h1 (Slice p 0 (length hs) (length hs)) with
      | Ret (ret, err) => Ret (ret, err, h1)
      | Panic => Ret (None, Some (errors_New "Malformed ClientHello"), h1)
      | Diverge => Diverge
      end.
Proof.
  intros Hc Hhdr.
  assert (s_len data = 5 + length hs) as Hlen.
  { rewrite <- (contents_length h data), Hc, length_app. lia. }
  exists (fresh (dom h)), (<[fresh (dom h) := hs]> h).
  split; [done|]. split; [done|]. split; [apply backing_alloc|].
  unfold parseClientHello. rewrite decide_False by lia. cbn [alloc].
  rewrite Hc, drop_app_length' by done.
  by replace (s_len data - 5) with (length hs) by lia.
Qed.

(** X15.  A packet made of any five header bytes, type 0x01, the right
    three-byte length, and well-sized fields followed by encoded
    extensions parses without error; every field reads back as it was
    encoded, and the extensions are the map of the encoded list.  The
    five header bytes and the declared extensions length are not
    checked against anything. *)
Theorem parseClientHello_roundtrip h data hdr ver rnd sid cs cm extLen es :
  contents h data = hdr ++ enc_hello ver rnd sid cs cm extLen (enc_entries es) →
  length hdr = 5 →
  hello_fields_ok ver rnd sid cs cm extLen (enc_entries es) →
  Forall (λ e, fits16 (length e.2)) es →
  ∃ ch h',
    parseClientHello h data = Ret (Some ch, None, h') ∧
    handshakeType ch = 0x01%Z ∧
    helloLength ch = length (enc_hello_body ver rnd sid cs cm extLen (enc_entries es)) ∧
    contents h' (clientVersion ch) = ver ∧
    contents h' (random ch) = rnd ∧
    sessionIdLen ch = length sid ∧ contents h' (sessionId ch) = sid ∧
    cipherSuitesLen ch = length cs ∧ contents h' (cipherSuites ch) = cs ∧
    compressionMethodsLen ch = length cm ∧ contents h' (compressionMethods ch) = cm ∧
    extensionsLen ch = extLen ∧
    contents h' <$> extensions ch = entries_map es.
Proof.
  intros Hc Hhdr Hok Hwf.
  destruct (parseClientHello_peel h data hdr _ Hc Hhdr) as (p & h1 & _ & _ & Hb & ->).
  destruct (parseClientHello_body_fields h1 _ ver rnd sid cs cm extLen _ Hb eq_refl Hok)
    as (cv & rn & si & csu & cme & tail & Hcv & Hrn & Hsi & Hsib & Hcsu & Hcme
        & Htail & Htl & _ & ->).
  destruct (parseExtensions_decode h1 tail es []) as (exts & -> & Hmap);
    [by rewrite app_nil_r|done|done|].
  cbn [mbind outcome_bind].
  eexists _, h1. split; [done|]. simpl. repeat split; done.
Qed.

Lemma truncated_nonempty tail : truncated tail → 0 < length tail.
Proof.
  intros [tl Hl|t1 t2 n body _ _]; [lia|]. rewrite !length_app. simpl. lia.
Qed.

(** X16.  When only the extension block is cut short, the parser
    returns a ClientHello together with the error "Malformed
    Extensions": the fields before the extensions are decoded, and the
    map holds the tags of the complete extensions. *)
Theorem parseClientHello_malformed_extensions
    h data hdr ver rnd sid cs cm extLen es tail :
  contents h data = hdr ++ enc_hello ver rnd sid cs cm extLen (enc_entries es ++ tail) →
  length hdr = 5 →
  hello_fields_ok ver rnd sid cs cm extLen (enc_entries es ++ tail) →
  Forall (λ e, fits16 (length e.2)) es →
  truncated tail →
  ∃ ch h',
    parseClientHello h data
    = Ret (Some ch, Some (errors_New "Malformed Extensions"), h') ∧
    contents h' (clientVersion ch) = ver ∧
    contents h' (random ch) = rnd ∧
    contents h' (sessionId ch) = sid ∧
    contents h' (cipherSuites ch) = cs ∧
    contents h' (compressionMethods ch) = cm ∧
    dom (extensions ch) = list_to_set es.*1.
Proof.
  intros Hc Hhdr Hok Hwf Htr.
  destruct (parseClientHello_peel h data hdr _ Hc Hhdr) as (p & h1 & _ & _ & Hb & ->).
  destruct (parseClientHello_body_fields h1 _ ver rnd sid cs cm extLen _ Hb eq_refl Hok)
    as (cv & rn & si & csu & cme & tl & Hcv & Hrn & Hsi & Hsib & Hcsu & Hcme
        & Htail & Htl & _ & ->).
  destruct (parseExtensions_loop_overrun h1 tl es [] (s_len tl) ∅ tail)
    as (exts & Hloop & Hdom & _); try done.
  { simpl. rewrite Htl, length_app. pose proof (truncated_nonempty tail Htr). lia. }
  { rewrite Htl, length_app. pose proof (enc_entries_length es).
    pose proof (truncated_nonempty tail Htr). lia. }
  unfold parseExtensions. simpl in Hloop. rewrite Hloop. cbn [mbind outcome_bind].
  eexists _, h1. split; [done|]. simpl. repeat split; try done.
  by rewrite Hdom, dom_empty_L, (left_id_L ∅ (∪)).
Qed.

(** X17.  A packet of at least six bytes whose handshake-type byte is
    not 0x01 is rejected with "Not a ClientHello", whatever follows. *)
Theorem parseClientHello_not_hello h data :
  6 ≤ s_len data → rd h data 5 ≠ 0x01%Z →
  ∃ h', parseClientHello h data = Ret (None, Some (errors_New "Not a ClientHello"), h').
Proof.
  intros Hlen Hty. unfold parseClientHello. rewrite decide_False by lia. cbn [alloc].
  eexists. unfold parseClientHello_body.
  rewrite (index_ret _ _ 0) by (simpl; lia). cbn [mbind outcome_bind].
  assert (rd (<[fresh (dom h) := drop 5 (contents h data)]> h)
             (Slice (fresh (dom h)) 0 (s_len data - 5) (s_len data - 5)) 0
          = rd h data 5) as ->.
  { unfold rd at 1, block. simpl. rewrite lookup_insert_eq. simpl.
    by rewrite (contents_drop_lookup h data 0) by lia. }
  by rewrite decide_True.
Qed.

(** ** ClientHello parser: every input, every overrun *)









(** ** What the parser allocates and hands out *)

Lemma wp_reslice_from_within (P : slice → Prop) s lo :
  s_len s ≤ s_cap s → (∀ r, within s r → P r) → wp P (reslice_from s lo).
Proof.
  intros Hlc HP. unfold reslice_from. case_decide; [|done].
  apply wp_reslice_within. auto.
Qed.

Lemma wp_parseExtensions_result (P : gmap (Z * Z) slice * option error → Prop) h input :
  (∀ ret err, map_Forall (λ _ s, within input s) ret → P (ret, err)) →
  wp P (parseExtensions h input).
Proof.
  intros HP. destruct (parseExtensions_result h input) as (ret & err & -> & _ & Hw).
  by apply HP.
Qed.

Lemma parseClientHello_body_within h peeled :
  s_len peeled ≤ s_cap peeled →
  wp (λ r, ∀ ch, r.1 = Some ch → Forall (within peeled) (ClientHello_slices ch))
     (parseClientHello_body h peeled).
Proof.
  intros Hlc. unfold parseClientHello_body.
  apply wp_bind, wp_index; intros handshakeType.
  case_decide; [by simpl|].
  apply wp_bind, wp_reslice; intros lb.
  apply wp_bind, wp_u32; intros length.
  apply wp_bind, wp_reslice_from; intros rest.
  case_decide; [by simpl|].
  apply wp_bind, wp_reslice_within; intros clientVersion Hcv _.
  apply wp_bind, wp_reslice_within; intros random Hrn _.
  apply wp_bind, wp_index; intros b1.
  apply wp_bind, wp_reslice_within; intros sessionId Hsi _.
  apply wp_bind, wp_reslice; intros l1.
  apply wp_bind, wp_u16; intros cipherSuitesLen.
  apply wp_bind, wp_reslice_within; intros cipherSuites Hcs _.
  apply wp_bind, wp_index; intros b2.
  apply wp_bind, wp_reslice_within; intros compressionMethods Hcm _.
  apply wp_bind, wp_reslice; intros l2.
  apply wp_bind, wp_u16; intros extensionsLen.
  apply wp_bind, wp_reslice_from_within; [done|]; intros tail Htail.
  apply wp_bind, wp_parseExtensions_result; intros exts err Hexts.
  simpl. intros ch [= <-]. unfold ClientHello_slices. simpl.
  repeat (apply Forall_cons; split; [done|]).
  apply Forall_fmap. apply map_Forall_to_list in Hexts.
  eapply Forall_impl; [exact Hexts|]. intros [tag s] Hs. simpl in *.
  by eapply within_trans.
Qed.

(** X18.  The parser leaves every existing array as it is: the heap it
    returns extends the one it got.  All slices of a returned
    ClientHello point into the one array it allocated, within its
    bounds; none aliases the caller's packet. *)
Theorem parseClientHello_allocates h data :
  ∃ ret err h',
    parseClientHello h data = Ret (ret, err, h') ∧
    h ⊆ h' ∧
    ∀ ch, ret = Some ch →
      Forall (λ s, s_buf s = fresh (dom h) ∧ slice_ok h' s) (ClientHello_slices ch).
Proof.
  unfold parseClientHello. case_decide as Hlen.
  { eexists _, _, _. split; [done|]. split; [done|]. intros ch [=]. }
  cbn [alloc].
  set (p := fresh (dom h)). set (h1 := <[p := drop 5 (contents h data)]> h).
  set (peeled := Slice p 0 (s_len data - 5) (s_len data - 5)).
  assert (h ⊆ h1) as Hsub.
  { apply insert_subseteq. apply not_elem_of_dom, is_fresh. }
  assert (slice_ok h1 peeled) as Hok.
  { unfold slice_ok, block, h1. simpl. rewrite lookup_insert_eq. simpl.
    rewrite length_drop, contents_length. lia. }
  pose proof (parseClientHello_body_within h1 peeled (reflexivity _)) as Hwp.
  destruct (parseClientHello_body h1 peeled) as [[ret err]| |]; simpl in Hwp.
  - exists ret, err, h1. split; [done|]. split; [done|].
    intros ch ->. eapply Forall_impl; [by apply Hwp|].
    intros s Hs. split; [by destruct Hs|]. by eapply within_ok.
  - eexists _, _, h1. split; [done|]. split; [done|]. intros ch [=].
  - done.
Qed.

(** ** From packet to reply *)

(** X19.  Parsing a well-formed packet and composing the reply for it
    echoes the packet's session id at offset 12 + len(sharedSecret) of
    the reply, for any secret outside the parser's array and any key at
    least as long. *)
Theorem composeReply_echoes_parsed_sessionId
    h data hdr ver rnd sid cs cm extLen es sharedSecret sessionKey entropy :
  contents h data = hdr ++ enc_hello ver rnd sid cs cm extLen (enc_entries es) →
  length hdr = 5 →
  hello_fields_ok ver rnd sid cs cm extLen (enc_entries es) →
  Forall (λ e, fits16 (length e.2)) es →
  s_len sharedSecret ≤ s_len sessionKey →
  s_buf sharedSecret ≠ fresh (dom h) →
  ∃ ch h1 reply h2,
    parseClientHello h data = Ret (Some ch, None, h1) ∧
    composeReply h1 (Some ch) sharedSecret sessionKey entropy = Ret (reply, h2) ∧
    length reply = 69 + s_len sharedSecret + length sid ∧
    take (length sid) (drop (12 + s_len sharedSecret) reply) = sid.
Proof.
  intros Hc Hhdr Hok Hwf Hlen Hne.
  destruct (parseClientHello_peel h data hdr _ Hc Hhdr) as (p & h1 & -> & _ & Hb & ->).
  destruct (parseClientHello_body_fields h1 _ ver rnd sid cs cm extLen _ Hb eq_refl Hok)
    as (cv & rn & si & csu & cme & tail & Hcv & Hrn & Hsi & Hsib & Hcsu & Hcme
        & Htail & Htl & _ & ->).
  destruct (parseExtensions_decode h1 tail es []) as (exts & -> & Hmap);
    [by rewrite app_nil_r|done|done|].
  cbn [mbind outcome_bind].
  destruct (xor_returns h1 sharedSecret sessionKey Hlen) as [h2 Hx].
  destruct (composeServerHello_sessionId_field h1 si _ _ entropy h2 Hx)
    as (sh & Hsh & Hshl & Hf).
  assert (s_len si = length sid) as Hsl by (by rewrite <- Hsi, contents_length).
  eexists _, h1, _, h2. split; [done|].
  split; [by apply composeReply_shape|].
  split.
  { rewrite !length_app, Hshl, Hsl. simpl. lia. }
  rewrite <- !app_assoc.
  rewrite (app_assoc [0x16; 0x03; 0x03]%Z (PutUint16 _)).
  replace (12 + s_len sharedSecret) with (5 + (7 + s_len sharedSecret)) by lia.
  rewrite <- drop_drop, drop_app_length' by done.
  rewrite <- Hsl, <- Hsi.
  rewrite <- (xor_frame h1 sharedSecret sessionKey h2 si Hx) by (simpl in Hsib; congruence).
  rewrite <- Hf.
  rewrite drop_app_le by lia. rewrite take_app_le; [done|].
  rewrite length_drop. lia.
Qed.

(** ** When a reply sender is returned *)

Section Success.
Context {State Addr Conn : Type}.
Variable ProxyBook : State → gmap string Addr.
Variable TouchStone :
  option ClientHello → State → heap →
  slice * Z * string * Z * slice * option error * heap.

(** X20.  A reply sender is returned exactly when the error is nil.  It
    then holds the connection, the ClientHello that parsed without
    error and the shared secret of a [TouchStone] call that succeeded
    on it, and the proxy method returned is in [ProxyBook]. *)
Theorem PrepareConnection_finisher (firstPacket : slice) (sta : State) (conn : Conn)
    (h : heap) :
  ∃ p h',
    PrepareConnection ProxyBook TouchStone firstPacket sta conn h = Ret (p, h') ∧
    (is_Some (finisher p) ↔ err p = None) ∧
    (∀ f, finisher p = Some f →
       fin_conn f = conn ∧
       is_Some (ProxyBook sta !! proxyMethod p) ∧
       ∃ h1,
         parseClientHello h firstPacket = Ret (fin_ch f, None, h1) ∧
         TouchStone (fin_ch f) sta h1
         = (UID p, sessionID p, proxyMethod p, encryptionMethod p,
            fin_sharedSecret f, None, h')).
Proof.
  unfold PrepareConnection.
  destruct (parseClientHello_returns h firstPacket) as (ch & perr & h1 & Hp).
  rewrite Hp. cbn [mbind outcome_bind].
  destruct perr as [e|].
  { eexists _, _. split; [done|]. simpl. split; [|done].
    split; [by intros [? ?]|done]. }
  destruct (TouchStone ch sta h1) as [[[[[[UID sessionID] pm] em] ss] [e|]] h2] eqn:Hts.
  { eexists _, _. split; [done|]. simpl. split; [|done].
    split; [by intros [? ?]|done]. }
  destruct (ProxyBook sta !! pm) as [a|] eqn:Hpb.
  - eexists _, _. split; [done|]. simpl. split; [by split; eauto|].
    intros f [= <-]. simpl. split; [done|]. split; [by rewrite Hpb|].
    exists h1. by rewrite Hts.
  - eexists _, _. split; [done|]. simpl. split; [|done].
    split; [by intros [? ?]|done].
Qed.
End Success.

(** ** Scenarios for the further properties *)

Lemma sample_fields_ok :
  hello_fields_ok [0x03; 0x03]%Z sample_random sample_sid [0xc0; 0x30]%Z [0x00]%Z 42
    (enc_entries [sample_keyshare]).
Proof. unfold hello_fields_ok, fits16. repeat split; vm_compute; done. Qed.

Lemma parseExtensions_roundtrip_witness :
  ∃ ret,
    parseExtensions {[ 1 := enc_entries repeated_extensions ]} (Slice 1 0 15 15)
    = Ret (ret, None) ∧
    contents {[ 1 := enc_entries repeated_extensions ]} <$> ret
    = entries_map repeated_extensions ∧
    contents {[ 1 := enc_entries repeated_extensions ]} <$> ret !! (0x00, 0x0a)%Z
    = Some [0x02; 0x03]%Z.
Proof.
  destruct (parseExtensions_roundtrip {[ 1 := enc_entries repeated_extensions ]}
              (Slice 1 0 15 15) repeated_extensions [])
    as (ret & Hret & Hmap & Hlast).
  - vm_compute. reflexivity.
  - reflexivity.
  - repeat constructor.
  - exists ret. split; [exact Hret|]. split; [exact Hmap|].
    apply (Hlast [((0x00, 0x0a)%Z, [0x01%Z]); ((0x00, 0x0b)%Z, [])]). reflexivity.
Defined.

Lemma parseExtensions_complete_witness :
  ∃ es,
    backing {[ 1 := enc_entries repeated_extensions ]} (Slice 1 0 15 15) = enc_entries es ∧
    Forall (λ e, fits16 (length e.2)) es.
Proof.
  destruct (parseExtensions_complete {[ 1 := enc_entries repeated_extensions ]}
              (Slice 1 0 15 15)
              {[ (0x00, 0x0a)%Z := Slice 1 13 2 2; (0x00, 0x0b)%Z := Slice 1 9 0 6 ]})
    as (es & Hes & Hwf & _).
  - reflexivity.
  - unfold all_bytes. apply (bool_decide_unpack _). vm_compute. exact I.
  - vm_compute. reflexivity.
  - exists es. split; [exact Hes|exact Hwf].
Defined.

Lemma parseKeyShare_truncated_witness :
  parseKeyShare {[ 1 := [0x00%Z] ]} (Slice 1 0 1 1)
  = Ret (nil_slice, Some (errors_New "malformed key_share")) ∧
  parseKeyShare {[ 1 := be16 43 ++ enc_entry other_share
                         ++ [0x00; 0x1d]%Z ++ be16 32 ++ replicate 16 0xaa%Z ]}
                (Slice 1 0 29 29)
  = Ret (nil_slice, Some (errors_New "malformed key_share")).
Proof.
  split.
  - apply (proj1 (parseKeyShare_truncated {[ 1 := [0x00%Z] ]} (Slice 1 0 1 1))).
    simpl. lia.
  - apply (proj2 (parseKeyShare_truncated _ (Slice 1 0 29 29)) 43 [other_share]
                 (replicate 16 0xaa%Z)).
    + reflexivity.
    + repeat constructor.
    + repeat constructor. discriminate.
    + vm_compute. reflexivity.
    + simpl. lia.
    + simpl. lia.
Defined.

Lemma parseClientHello_roundtrip_witness :
  ∃ ch h',
    parseClientHello sample_heap sample_data = Ret (Some ch, None, h') ∧
    contents h' (random ch) = sample_random ∧
    contents h' (sessionId ch) = sample_sid ∧
    extensionsLen ch = 42 ∧
    contents h' <$> extensions ch = entries_map [sample_keyshare].
Proof.
  destruct (parseClientHello_roundtrip sample_heap sample_data
              [0x16; 0x03; 0x01; 0x00; 0x79]%Z [0x03; 0x03]%Z sample_random sample_sid
              [0xc0; 0x30]%Z [0x00]%Z 42 [sample_keyshare])
    as (ch & h' & Hp & _ & _ & _ & Hr & _ & Hs & _ & _ & _ & _ & He & Hm).
  - vm_compute. reflexivity.
  - reflexivity.
  - exact sample_fields_ok.
  - repeat constructor.
  - exists ch, h'. repeat split; assumption.
Defined.

Lemma parseClientHello_malformed_extensions_witness :
  ∃ ch h',
    parseClientHello {[ 1 := cut_packet ]} (Slice 1 0 92 92)
    = Ret (Some ch, Some (errors_New "Malformed Extensions"), h') ∧
    contents h' (sessionId ch) = sample_sid ∧
    dom (extensions ch) = {[ (0x00, 0x0a)%Z ]}.
Proof.
  destruct (parseClientHello_malformed_extensions {[ 1 := cut_packet ]} (Slice 1 0 92 92)
              [0x16; 0x03; 0x01; 0x00; 0x57]%Z [0x03; 0x03]%Z sample_random sample_sid
              [0xc0; 0x30]%Z [0x00]%Z 8 [((0x00, 0x0a)%Z, [0xff%Z])]
              [0x00; 0x0b; 0x00]%Z)
    as (ch & h' & Hp & _ & _ & Hs & _ & _ & Hd).
  - vm_compute. reflexivity.
  - reflexivity.
  - unfold hello_fields_ok, fits16. repeat split; vm_compute; done.
  - repeat constructor.
  - apply truncated_header. simpl. lia.
  - exists ch, h'. split; [exact Hp|]. split; [exact Hs|].
    rewrite Hd. simpl. apply (right_id_L ∅ (∪)).
Defined.

Lemma parseClientHello_not_hello_witness :
  ∃ h', parseClientHello {[ 1 := [0x16; 0x03; 0x03; 0x00; 0x01; 0x02]%Z ]} (Slice 1 0 6 6)
        = Ret (None, Some (errors_New "Not a ClientHello"), h').
Proof.
  apply (parseClientHello_not_hello _ (Slice 1 0 6 6)).
  - simpl. lia.
  - vm_compute. discriminate.
Defined.

Lemma parseClientHello_allocates_witness :
  ∃ ch h',
    parseClientHello sample_heap sample_data = Ret (Some ch, None, h') ∧
    sample_heap ⊆ h' ∧
    Forall (λ s, s_buf s = fresh (dom sample_heap) ∧ slice_ok h' s) (ClientHello_slices ch).
Proof.
  destruct (parseClientHello_allocates sample_heap sample_data)
    as (ret & err & h' & Hp & Hsub & Hch).
  destruct ret as [ch|]; [|vm_compute in Hp; discriminate].
  destruct err as [e|]; [vm_compute in Hp; discriminate|].
  exists ch, h'. split; [exact Hp|]. split; [exact Hsub|]. apply Hch. reflexivity.
Defined.

Lemma composeReply_echoes_parsed_sessionId_witness :
  ∃ ch h1 reply h2,
    parseClientHello sample_heap sample_data = Ret (Some ch, None, h1) ∧
    composeReply h1 (Some ch) sample_secret sample_sessionKey (λ _, 0%Z) = Ret (reply, h2) ∧
    length reply = 133 ∧
    take 32 (drop 44 reply) = sample_sid.
Proof.
  apply (composeReply_echoes_parsed_sessionId sample_heap sample_data
           [0x16; 0x03; 0x01; 0x00; 0x79]%Z [0x03; 0x03]%Z sample_random sample_sid
           [0xc0; 0x30]%Z [0x00]%Z 42 [sample_keyshare]
           sample_secret sample_sessionKey (λ _, 0%Z)).
  - vm_compute. reflexivity.
  - reflexivity.
  - exact sample_fields_ok.
  - repeat constructor.
  - simpl. lia.
  - vm_compute. lia.
Defined.

Lemma PrepareConnection_finisher_witness :
  ∃ p h' f,
    PrepareConnection (λ _ : (), ({[ "shadowsocks" := () ]} : gmap string ()))
      TouchStone_accept sample_data () () sample_heap = Ret (p, h') ∧
    err p = None ∧ finisher p = Some f ∧
    fin_conn f = () ∧ fin_sharedSecret f = sample_secret ∧
    proxyMethod p = "shadowsocks".
Proof.
  destruct (PrepareConnection_finisher (λ _ : (), ({[ "shadowsocks" := () ]} : gmap string ()))
              TouchStone_accept sample_data () () sample_heap)
    as (p & h' & Hp & Hiff & Hf).
  destruct (finisher p) as [f|] eqn:Hfin.
  - destruct (Hf f eq_refl) as (Hc & _ & h1 & Hparse & Hts).
    exists p, h', f. split; [exact Hp|].
    split; [apply Hiff; by eexists|]. split; [exact Hfin|]. split; [exact Hc|].
    unfold TouchStone_accept in Hts. injection Hts as _ _ Hpm _ Hss _.
    split; congruence.
  - vm_compute in Hp. injection Hp as <- _. discriminate Hfin.
Defined.
